(** * dojo/core language utilities and Symbol shim: a shallow embedding

  The two source files embedded here are

  - [lang] (src/unnamed/part_000): [isIdentical], [createHandle],
    [_mixin], [assign], [create] and the factory [observe];
  - [Symbol] (src/src/Symbol.ts): [getSymbolName], the shimmed [Symbol]
    function, [Symbol.for] and [Symbol.keyFor].

  JavaScript values are modelled by the inductive [value]; numbers are
  IEEE 754 binary64 values (Rocq's primitive floats), objects and
  functions are references compared by identity. *)

From Stdlib Require Import Floats ZArith Lia.
From stdpp Require Import base option list gmap strings pretty.

Local Open Scope list_scope.

(** ** JavaScript values *)

Module JS.

(** A reference to an object.  Functions are objects.  [Host name] is a
    built-in object of the host, [Loc n] the [n]-th object allocated by
    the program. *)
Inductive ref : Type :=
| Host (name : string)
| Loc (n : nat).

#[global] Instance ref_eq_dec : EqDecision ref.
Proof. solve_decision. Defined.

Inductive value : Type :=
| VUndefined
| VNull
| VBoolean (b : bool)
| VNumber (x : float)
| VString (s : string)
| VObject (r : ref).

(** The strict equality comparison [a === b] (ECMAScript 7.2.15): values
    of different types are different; numbers compare as IEEE 754 values
    (so NaN differs from itself and +0 equals -0); objects compare by
    reference. *)
Definition strict_equals (a b : value) : bool :=
  match a, b with
  | VUndefined, VUndefined => true
  | VNull, VNull => true
  | VBoolean x, VBoolean y => bool_decide (x = y)
  | VNumber x, VNumber y => PrimFloat.eqb x y
  | VString x, VString y => bool_decide (x = y)
  | VObject x, VObject y => bool_decide (x = y)
  | _, _ => false
  end.

(** [a !== b] *)
Definition strict_not_equals (a b : value) : bool := negb (strict_equals a b).

(** The abstract operation ToBoolean (truthiness). *)
Definition ToBoolean (v : value) : bool :=
  match v with
  | VUndefined | VNull => false
  | VBoolean b => b
  | VNumber x => negb (PrimFloat.eqb x PrimFloat.zero || PrimFloat.is_nan x)
  | VString s => negb (bool_decide (s = ""))
  | VObject _ => true
  end.

(** The number value NaN. *)
Definition NaN : value := VNumber PrimFloat.nan.

(** [is_NaN v]: [v] is a number whose IEEE 754 datum is the not-a-number. *)
Definition is_NaN (v : value) : Prop :=
  ∃ x, v = VNumber x ∧ Prim2SF x = S754_nan.

(** The result of running a piece of code that may throw. *)
Inductive completion (E A : Type) : Type :=
| Return (a : A)
| Throw (e : E).
Arguments Return {E A} a.
Arguments Throw {E A} e.

(** The error objects the two files construct. *)
Inductive error : Type :=
| TypeError (message : string)
| RangeError (message : string).

Definition message (e : error) : string :=
  match e with TypeError m | RangeError m => m end.

End JS.
Export JS.

(** ** Objects

    The fragment of JavaScript objects the two files work on: ordinary
    objects with a prototype link and own data properties kept in insertion
    order, each with its [enumerable] attribute.  The data properties of
    the heap are writable; accessor properties (getters, setters, the
    host's [__proto__]) and arrays are not part of the model of the heap. *)

Module Obj.

Record property : Type := Property {
  p_value : value;
  p_enumerable : bool
}.

(** The own properties of an object, in insertion order. *)
Abbreviation properties := (list (string * property)).

Fixpoint lookup_property (key : string) (props : properties) : option property :=
  match props with
  | [] => None
  | (k, p) :: rest =>
      if decide (k = key) then Some p else lookup_property key rest
  end.

(** [props[key] = v] on an own data property: the value is replaced where
    the property exists, and a new enumerable property is appended where
    it does not. *)
Fixpoint assign_property (key : string) (v : value) (props : properties) : properties :=
  match props with
  | [] => [(key, Property v true)]
  | (k, p) :: rest =>
      if decide (k = key) then (k, Property v (p_enumerable p)) :: rest
      else (k, p) :: assign_property key v rest
  end.

(** [Object.defineProperty(o, key, {value: v, enumerable: e, ...})] on the
    own properties (the properties defined here are configurable). *)
Fixpoint define_property (key : string) (p : property) (props : properties) : properties :=
  match props with
  | [] => [(key, p)]
  | (k, q) :: rest =>
      if decide (k = key) then (k, p) :: rest
      else (k, q) :: define_property key p rest
  end.

(** The keys of the own enumerable properties, in order. *)
Definition enumerable_keys (props : properties) : list string :=
  (filter (λ kp, p_enumerable kp.2 = true) props).*1.

Inductive class : Type :=
| ClassObject  (** [Object.prototype.toString] gives "[object Object]" *)
| ClassOther.  (** functions, dates, ... *)

Record object : Type := Object {
  o_class : class;
  o_proto : option ref;   (** [None] is the [null] prototype *)
  o_props : properties
}.

(** The heap: the [n]-th allocated object is [Loc n].  Built-in objects of
    the host are not stored: they have no enumerable property. *)
Abbreviation heap := (list object).

Definition heap_get (h : heap) (r : ref) : option object :=
  match r with
  | Loc n => h !! n
  | Host _ => None
  end.

Definition heap_set (h : heap) (r : ref) (o : object) : heap :=
  match r with
  | Loc n => <[n := o]> h
  | Host _ => h
  end.

Definition alloc (o : object) (h : heap) : ref * heap :=
  (Loc (length h), h ++ [o]).

(** [r] denotes an object: a built-in one, or one allocated in [h]. *)
Definition allocated (h : heap) (r : ref) : Prop :=
  match r with
  | Loc n => n < length h
  | Host _ => True
  end.

Definition own_properties (h : heap) (r : ref) : properties :=
  match heap_get h r with
  | Some o => o_props o
  | None => []
  end.

(** [Object.prototype.hasOwnProperty.call(r, key)] *)
Definition hasOwnProperty (h : heap) (r : ref) (key : string) : bool :=
  bool_decide (is_Some (lookup_property key (own_properties h r))).

(** [r[key]]: the own property, else the one found along the prototype
    chain ([fuel] bounds the length of the chain). *)
Fixpoint Get_chain (fuel : nat) (h : heap) (o : option ref) (key : string) : value :=
  match fuel, o with
  | S fuel', Some r =>
      match lookup_property key (own_properties h r) with
      | Some p => p_value p
      | None => Get_chain fuel' h (heap_get h r ≫= o_proto) key
      end
  | _, _ => VUndefined
  end.

Definition Get (h : heap) (r : ref) (key : string) : value :=
  Get_chain (S (length h)) h (Some r) key.

(** [r[key] = v] *)
Definition Set_ (h : heap) (r : ref) (key : string) (v : value) : heap :=
  match heap_get h r with
  | Some o =>
      heap_set h r (Object (o_class o) (o_proto o) (assign_property key v (o_props o)))
  | None => h
  end.

(** The keys [for (key in r)] visits: the enumerable own keys, then the
    enumerable keys of the prototype chain that no nearer object has
    (whether enumerable there or not). *)
Fixpoint visit_properties (props : properties) (seen : list string) : list string * list string :=
  match props with
  | [] => ([], seen)
  | (k, p) :: rest =>
      if decide (k ∈ seen) then visit_properties rest seen
      else
        let '(keys, seen') := visit_properties rest (seen ++ [k]) in
        (if p_enumerable p then k :: keys else keys, seen')
  end.

Fixpoint for_in_chain (fuel : nat) (h : heap) (o : option ref) (seen : list string) : list string :=
  match fuel, o with
  | S fuel', Some r =>
      let '(keys, seen') := visit_properties (own_properties h r) seen in
      keys ++ for_in_chain fuel' h (heap_get h r ≫= o_proto) seen'
  | _, _ => []
  end.

Definition for_in (h : heap) (r : ref) : list string :=
  for_in_chain (S (length h)) h (Some r) [].

(** [Object.prototype.toString.call(item) === '[object Object]'] *)
Definition isObject (h : heap) (item : value) : bool :=
  match item with
  | VObject r =>
      match heap_get h r with
      | Some o => match o_class o with ClassObject => true | ClassOther => false end
      | None => false
      end
  | _ => false
  end.

(** [Object.create(proto)] *)
Definition Object_create (proto : value) (h : heap) : completion error (ref * heap) :=
  match proto with
  | VObject r => Return (alloc (Object ClassObject (Some r) []) h)
  | VNull => Return (alloc (Object ClassObject None []) h)
  | _ => Throw (TypeError "Object prototype may only be an Object or null")
  end.

(** The object literal [{}]. *)
Definition Object_literal (h : heap) : ref * heap :=
  alloc (Object ClassObject (Some (Host "Object.prototype")) []) h.

(** *** The effect of a copy on the heap *)

(** [h'] is [h] after assignments to the properties of [tgt] and the
    creation of objects: every object of [h] is still there with its class
    and its prototype, and those other than [tgt] are as they were. *)
Definition assigned_to (tgt : ref) (h h' : heap) : Prop :=
  length h ≤ length h'
  ∧ ∀ n o, h !! n = Some o →
      ∃ o', h' !! n = Some o'
            ∧ o_class o' = o_class o
            ∧ o_proto o' = o_proto o
            ∧ (tgt ≠ Loc n → o' = o).

(** The value is no reference to an object still to be created. *)
Definition value_allocated (h : heap) (v : value) : Prop :=
  match v with
  | VObject r => allocated h r
  | _ => True
  end.

(** The objects [r[key]] looks into: [r], then its prototype chain. *)
Fixpoint proto_chain_from (fuel : nat) (h : heap) (o : option ref) : list ref :=
  match fuel, o with
  | S fuel', Some r => r :: proto_chain_from fuel' h (heap_get h r ≫= o_proto)
  | _, _ => []
  end.

Definition proto_chain (h : heap) (r : ref) : list ref :=
  proto_chain_from (S (length h)) h (Some r).

(** *** The effect of a loop of assignments *)

(** All the properties are enumerable. *)
Definition all_enumerable (props : properties) : Prop :=
  ∀ key p, lookup_property key props = Some p → p_enumerable p = true.

(** The effect of a loop of assignments on the properties of the target:
    for every key of [keys] in turn that [from] has with [wanted], the
    value is assigned. *)
Fixpoint copy_properties (wanted : property → bool) (from : properties)
    (keys : list string) (to : properties) : properties :=
  match keys with
  | [] => to
  | key :: rest =>
      copy_properties wanted from rest
        (match lookup_property key from with
         | Some p => if wanted p then assign_property key (p_value p) to else to
         | None => to
         end)
  end.

(** The value the loop assigns to [key], if any. *)
Definition copied (wanted : property → bool) (from : properties)
    (keys : list string) (key : string) : option value :=
  match lookup_property key from with
  | Some p => if decide (key ∈ keys) then
                if wanted p then Some (p_value p) else None
              else None
  | None => None
  end.

End Obj.
Export Obj.

(** ** lang: src/unnamed/part_000 *)

Module Lang.

(** [isIdentical] (lines 164-168):
    [a === b || (a !== a && b !== b)]. *)
Definition isIdentical (a b : value) : bool :=
  strict_equals a b || (strict_not_equals a a && strict_not_equals b b).

(** *** Handles (lines 247-254) *)

Section Handle.

(** The state the destructor acts on, outside the handle. *)
Context {World : Type}.

(** The function held by the [destroy] property of a handle: the one
    [createHandle] installs (lines 249-252) or the empty function it is
    replaced with (line 250). *)
Inductive destroy_function : Type :=
| DestroyOnce
| DestroyNothing.

(** A destructor is a function [() => void].  Line 251 runs it with the
    handle as [this]; what it does is modelled on the state outside the
    handle: it changes the world, and either returns or throws a value.  A
    destructor that assigns to [this.destroy] is outside this model. *)
Definition destructor_function : Type := World → World * completion value unit.

Record Handle : Type := MkHandle {
  h_destructor : destructor_function;
  h_destroy : destroy_function
}.

Definition createHandle (destructor : destructor_function) : Handle :=
  MkHandle destructor DestroyOnce.

(** What one call [handle.destroy()] does: the handle and the world after
    it, how it completes, and how many times it invoked the destructor. *)
Record destroy_result : Type := DestroyResult {
  r_handle : Handle;
  r_world : World;
  r_completion : completion value unit;
  r_invoked : nat
}.

Definition destroy (handle : Handle) (w : World) : destroy_result :=
  match h_destroy handle with
  | DestroyOnce =>
      let this := MkHandle (h_destructor handle) DestroyNothing in
      let '(w', c) := h_destructor handle w in
      DestroyResult this w' c 1
  | DestroyNothing => DestroyResult handle w (Return ()) 0
  end.

(** [n] calls of [handle.destroy()] in a row, each one made whatever the
    one before did: the handle and the world at the end, the completions of
    the calls in order, and the number of destructor invocations. *)
Fixpoint destroy_times (n : nat) (handle : Handle) (w : World)
  : Handle * World * list (completion value unit) * nat :=
  match n with
  | 0 => (handle, w, [], 0)
  | S n' =>
      let r := destroy handle w in
      let '(handle', w', cs, k) := destroy_times n' (r_handle r) (r_world r) in
      (handle', w', r_completion r :: cs, r_invoked r + k)
  end.

End Handle.

Arguments Handle : clear implicits.
Arguments destructor_function : clear implicits.
Arguments destroy_result : clear implicits.

(** *** Composite handles (lines 262-268) *)

Section CompositeHandle.

Context {World : Type}.

(** [handle.destroy()] on the [n]-th handle of the store: the store and the
    world after the call, how it completes, and the handles whose
    destructor it ran.  A reference to no handle is [undefined], and
    calling its [destroy] throws a TypeError. *)
Definition destroy_at (n : nat) (store : list (Handle World)) (w : World)
  : list (Handle World) * World * completion value unit * list nat :=
  match store !! n with
  | Some handle =>
      let r := destroy handle w in
      (<[n := r_handle r]> store, r_world r, r_completion r,
       match r_invoked r with 0 => [] | S _ => [n] end)
  | None => (store, w, Throw (VObject (Host "TypeError")), [])
  end.

(** Lines 264-266, [for (let handle of handles) { handle.destroy(); }]: a
    call that throws ends the loop. *)
Fixpoint destroy_each (handles : list nat) (store : list (Handle World)) (w : World)
  : list (Handle World) * World * completion value unit * list nat :=
  match handles with
  | [] => (store, w, Return (), [])
  | n :: rest =>
      let '(store1, w1, c, ran) := destroy_at n store w in
      match c with
      | Return _ =>
          let '(store2, w2, c2, ran2) := destroy_each rest store1 w1 in
          (store2, w2, c2, ran ++ ran2)
      | Throw e => (store1, w1, Throw e, ran)
      end
  end.

(** A handle of the store that is not destroyed yet, and one that is. *)
Definition live (store : list (Handle World)) (n : nat) : Prop :=
  ∃ f, store !! n = Some (MkHandle f DestroyOnce).

Definition spent (store : list (Handle World)) (n : nat) : Prop :=
  ∃ f, store !! n = Some (MkHandle f DestroyNothing).

(** [createCompositeHandle] (lines 262-268).  The handles are the objects
    of a store, which the destructor of the composite works on together
    with the world: [handles] lists their places in it. *)
Definition createCompositeHandle (handles : list nat)
  : Handle (World * list (Handle World)) :=
  createHandle
    (λ '(w, store),
       let '(store', w', c, _) := destroy_each handles store w in
       ((w', store'), c)).

End CompositeHandle.

(** *** Mixins (lines 9-108) *)

Record MixinArgs : Type := {
  deep : bool;
  inherited : bool;
  sources : list ref;
  target : ref
}.

Definition bind {E A B : Type}
  (c : completion E A) (f : A → completion E B) : completion E B :=
  match c with
  | Return a => f a
  | Throw e => Throw e
  end.

Section MixinLoops.

(** What lines 47-59 do to the value read from the source. *)
Variable copy : value → heap → completion error (value * heap).
Variable kwArgs : MixinArgs.

(** Lines 44-62, the body of the inner loop. *)
Definition mixin_key (source : ref) (key : string) (h : heap) : completion error heap :=
  if inherited kwArgs || hasOwnProperty h source key then
    bind (copy (Get h source key) h)
      (λ '(value, h'), Return (Set_ h' (target kwArgs) key value))
  else Return h.

(** Line 43, [for (let key in source)], over the keys still to visit. *)
Fixpoint mixin_keys (source : ref) (keys : list string) (h : heap) : completion error heap :=
  match keys with
  | [] => Return h
  | key :: rest => bind (mixin_key source key h) (mixin_keys source rest)
  end.

(** Line 42, [for (let source of kwArgs.sources)]. *)
Fixpoint mixin_sources (srcs : list ref) (h : heap) : completion error heap :=
  match srcs with
  | [] => Return h
  | source :: rest =>
      bind (mixin_keys source (for_in h source) h) (mixin_sources rest)
  end.

End MixinLoops.

(** [_mixin] (lines 37-67).  [stack] is the number of nested calls the
    host still allows: the recursion of line 52 on a cyclic object runs
    out of it, as the call stack does.  No value is an array here, so
    [copyArray] (lines 13-28, 48-50) is not entered. *)
Fixpoint _mixin (stack : nat) (kwArgs : MixinArgs) (h : heap) : completion error (ref * heap) :=
  let copy (value : JS.value) (h : heap) : completion error (JS.value * heap) :=
    if deep kwArgs then
      match value with
      | VObject r =>
          if isObject h value then
            match stack with
            | 0 => Throw (RangeError "Maximum call stack size exceeded")
            | S stack' =>
                let '(fresh, h1) := Object_literal h in
                bind (_mixin stack'
                        {| deep := true; inherited := inherited kwArgs;
                           sources := [r]; target := fresh |} h1)
                  (λ '(copied, h2), Return (VObject copied, h2))
            end
          else Return (value, h)
      | _ => Return (value, h)
      end
    else Return (value, h) in
  bind (mixin_sources copy kwArgs (sources kwArgs) h)
    (λ h', Return (target kwArgs, h')).

(** The host's [Object.assign] (ECMAScript 2015, 19.1.2.1): for every
    source in turn and every own enumerable key of it in turn,
    [target[key] = source[key]]. *)
Fixpoint Object_assign_keys (tgt source : ref) (keys : list string) (h : heap) : heap :=
  match keys with
  | [] => h
  | key :: rest =>
      Object_assign_keys tgt source rest
        (match lookup_property key (own_properties h source) with
         | Some p =>
             if p_enumerable p then Set_ h tgt key (Get h source key) else h
         | None => h
         end)
  end.

Fixpoint Object_assign (tgt : ref) (srcs : list ref) (h : heap) : ref * heap :=
  match srcs with
  | [] => (tgt, h)
  | source :: rest =>
      Object_assign tgt rest
        (Object_assign_keys tgt source (own_properties h source).*1 h)
  end.

(** Lines 47-59 as [_mixin] runs them with [stack] nested calls left. *)
Definition copy_value (stack : nat) (kwArgs : MixinArgs) (value : JS.value) (h : heap)
  : completion error (JS.value * heap) :=
  if deep kwArgs then
    match value with
    | VObject r =>
        if isObject h value then
          match stack with
          | 0 => Throw (RangeError "Maximum call stack size exceeded")
          | S stack' =>
              let '(fresh, h1) := Object_literal h in
              bind (_mixin stack'
                      {| deep := true; inherited := inherited kwArgs;
                         sources := [r]; target := fresh |} h1)
                (λ '(copied, h2), Return (VObject copied, h2))
          end
        else Return (value, h)
    | _ => Return (value, h)
    end
  else Return (value, h).

(** The error of a host whose call stack is exhausted. *)
Definition stack_overflow : error := RangeError "Maximum call stack size exceeded".

(** What a copy into [tgt] may do: it returns [tgt], having assigned to
    properties of [tgt] and, if it is deep, created objects; the only way
    it fails is a deep copy that exhausts the stack. *)
Definition copy_outcome (is_deep : bool) (tgt : ref) (h : heap)
    (c : completion error (ref * heap)) : Prop :=
  match c with
  | Return (r, h') =>
      r = tgt ∧ assigned_to tgt h h' ∧ (is_deep = false → length h' = length h)
  | Throw e => is_deep = true ∧ e = stack_overflow
  end.

(** The same for the loops of [_mixin], which return the heap. *)
Definition loop_outcome (kwArgs : MixinArgs) (h : heap) (c : completion error heap) : Prop :=
  match c with
  | Return h' =>
      assigned_to (target kwArgs) h h' ∧ (deep kwArgs = false → length h' = length h)
  | Throw e => deep kwArgs = true ∧ e = stack_overflow
  end.

(** [Object.getPrototypeOf(r)]; an object the heap does not hold is a
    built-in of the host, taken here with no prototype. *)
Definition Object_getPrototypeOf (h : heap) (r : ref) : value :=
  match heap_get h r ≫= o_proto with
  | Some proto => VObject proto
  | None => VNull
  end.

(** What a shallow copy is to produce.  [own_enumerable h r key] is the
    value of the own enumerable property [key] of [r], if [r] has one;
    [last_enumerable h mixins key] is the one of the last object of [mixins]
    that has such a property: later sources overwrite earlier ones. *)
Definition own_enumerable (h : heap) (r : ref) (key : string) : option value :=
  match lookup_property key (own_properties h r) with
  | Some p => if p_enumerable p then Some (p_value p) else None
  | None => None
  end.

Fixpoint last_enumerable (h : heap) (mixins : list ref) (key : string) : option value :=
  match mixins with
  | [] => None
  | mixin :: rest =>
      match last_enumerable h rest key with
      | Some v => Some v
      | None => own_enumerable h mixin key
      end
  end.

(** *** The observer factory (lines 210-221) *)

(** [ObserveArgs] (lines 216-221).  A field that the caller left out is
    [None]. *)
Module ObserveArgs.
Record t : Type := {
  listener : option ref;
  nextTurn : option bool;
  onlyReportObserved : option bool;
  target : option ref
}.
End ObserveArgs.

(** [./observers/ObjectObserver] and [./observers/interfaces]. *)
Module ObjectObserver.

(** Modelled from the spec: the type [PropertyEvent] of
    ./observers/interfaces, which is not among the sources (spec, section 3
    and section 4.2: target, name, type and the value the diff gives it). *)
Inductive event_type : Type := EventAdd | EventUpdate | EventDelete.

(** Modelled from the spec: one event of a batch (section 3). *)
Record PropertyEvent : Type := {
  ev_target : ref;
  ev_name : string;
  ev_type : event_type;
  ev_value : value
}.

(** Modelled from the spec: the Snapshot of section 3, the mapping from
    property key to last-seen value, in insertion order. *)
Abbreviation Snapshot := (list (string * value)).

(** Modelled from the spec: the last-seen value of a key in a Snapshot. *)
Fixpoint snapshot_lookup (key : string) (s : Snapshot) : option value :=
  match s with
  | [] => None
  | (k, v) :: rest => if decide (k = key) then Some v else snapshot_lookup key rest
  end.

(** Modelled from the spec: the snapshot of "the target's own enumerable
    properties" (section 4.2). *)
Definition take_snapshot (h : heap) (tgt : ref) : Snapshot :=
  (λ kp, (kp.1, p_value kp.2)) <$>
    filter (λ kp, p_enumerable kp.2 = true) (own_properties h tgt).

(** Modelled from the spec: the class Es5Observer (DirtyCheckObserver,
    section 4.2) of ./observers/ObjectObserver, which is not among the
    sources: the state of one instance. *)
Record DirtyCheckObserver : Type := {
  dc_target : ref;
  dc_listener : ref;
  dc_nextTurn : bool;
  dc_onlyReportObserved : bool;
  dc_observed : list string;  (** the key set captured at creation *)
  dc_snapshot : Snapshot;
  dc_destroyed : bool
}.

(** Modelled from the spec: the class Es7Observer (NativeChangeObserver,
    section 4.3), which is not among the sources: the state of one
    instance. *)
Record NativeChangeObserver : Type := {
  nc_target : ref;
  nc_listener : ref;
  nc_subscribed : bool
}.

(** Modelled from the spec: an instance of one of the two classes. *)
Inductive Observer : Type :=
| DirtyCheck (o : DirtyCheckObserver)
| NativeChange (o : NativeChangeObserver).

(** Modelled from the spec: section 7, "Invalid configuration (missing
    target or listener) ... fails fast and synchronously at
    observer-creation time with a descriptive error; no partial observer is
    created". *)
Definition validate (kwArgs : ObserveArgs.t) : completion error (ref * ref) :=
  match ObserveArgs.target kwArgs, ObserveArgs.listener kwArgs with
  | None, _ => Throw (TypeError "observe: a target object is required")
  | Some _, None => Throw (TypeError "observe: a listener function is required")
  | Some tgt, Some lst => Return (tgt, lst)
  end.

(** Modelled from the spec: an option left out is off ("default false",
    section 4.1). *)
Definition or_false (b : option bool) : bool :=
  match b with Some true => true | _ => false end.

(** Modelled from the spec: [new Es5Observer(kwArgs)], section 4.2 "On
    creation: capture an initial Snapshot of the target's own enumerable
    properties". *)
Definition Es5Observer (kwArgs : ObserveArgs.t) (h : heap) : completion error Observer :=
  match validate kwArgs with
  | Throw e => Throw e
  | Return (tgt, lst) =>
      let initial := take_snapshot h tgt in
      Return (DirtyCheck
        {| dc_target := tgt;
           dc_listener := lst;
           dc_nextTurn := or_false (ObserveArgs.nextTurn kwArgs);
           dc_onlyReportObserved := or_false (ObserveArgs.onlyReportObserved kwArgs);
           dc_observed := initial.*1;
           dc_snapshot := initial;
           dc_destroyed := false |})
  end.

(** Modelled from the spec: [new Es7Observer(kwArgs)], section 4.3. *)
Definition Es7Observer (kwArgs : ObserveArgs.t) (h : heap) : completion error Observer :=
  match validate kwArgs with
  | Throw e => Throw e
  | Return (tgt, lst) =>
      Return (NativeChange
        {| nc_target := tgt; nc_listener := lst; nc_subscribed := true |})
  end.

(** Modelled from the spec: the snapshot a check computes; "if
    onlyReportObserved is set, only the originally captured key set is
    diffed" (section 4.2). *)
Definition current_snapshot (o : DirtyCheckObserver) (h : heap) : Snapshot :=
  let now := take_snapshot h (dc_target o) in
  if dc_onlyReportObserved o
  then filter (λ kv, kv.1 ∈ dc_observed o) now
  else now.

(** Modelled from the spec: the diff of section 4.2.  The keys of the new
    snapshot are visited first, in its order, then the keys of the old one
    that are gone.  "Key present in new, absent in old" gives an add event
    and "key present in both, values not identical" an update event. *)
Definition diff_new (tgt : ref) (old : Snapshot) (kv : string * value) : list PropertyEvent :=
  match snapshot_lookup kv.1 old with
  | None => [ {| ev_target := tgt; ev_name := kv.1; ev_type := EventAdd; ev_value := kv.2 |} ]
  | Some was =>
      if isIdentical was kv.2 then []
      else [ {| ev_target := tgt; ev_name := kv.1; ev_type := EventUpdate; ev_value := kv.2 |} ]
  end.

(** Modelled from the spec: "key present in old, absent in new" gives a
    delete event (section 4.2). *)
Definition diff_old (tgt : ref) (new : Snapshot) (kv : string * value) : list PropertyEvent :=
  match snapshot_lookup kv.1 new with
  | None => [ {| ev_target := tgt; ev_name := kv.1; ev_type := EventDelete; ev_value := VUndefined |} ]
  | Some _ => []
  end.

(** Modelled from the spec: the batch of one diff, in discovery order. *)
Definition diff (tgt : ref) (old new : Snapshot) : list PropertyEvent :=
  (new ≫= diff_new tgt old) ++ (old ≫= diff_old tgt new).

(** Modelled from the spec: one check cycle of section 4.2.  A destroyed
    observer has no check cycle ([destroy] cancels them): [None].
    Otherwise the new snapshot replaces the old one, and the result lists
    the batches the listener is invoked with during the cycle, one
    invocation per element. *)
Definition check (o : DirtyCheckObserver) (h : heap)
  : option (DirtyCheckObserver * list (list PropertyEvent)) :=
  if dc_destroyed o then None
  else
    let new := current_snapshot o h in
    let batch := diff (dc_target o) (dc_snapshot o) new in
    Some ({| dc_target := dc_target o;
             dc_listener := dc_listener o;
             dc_nextTurn := dc_nextTurn o;
             dc_onlyReportObserved := dc_onlyReportObserved o;
             dc_observed := dc_observed o;
             dc_snapshot := new;
             dc_destroyed := false |},
          match batch with
          | [] => []
          | _ :: _ => [batch]
          end).

(** Modelled from the spec: [destroy()] (sections 3 and 4.2) cancels the
    checks to come; calling it again changes nothing. *)
Definition destroy (o : DirtyCheckObserver) : DirtyCheckObserver :=
  {| dc_target := dc_target o;
     dc_listener := dc_listener o;
     dc_nextTurn := dc_nextTurn o;
     dc_onlyReportObserved := dc_onlyReportObserved o;
     dc_observed := dc_observed o;
     dc_snapshot := dc_snapshot o;
     dc_destroyed := true |}.

(** Modelled from the spec: the check cycles of an observer, one for each
    heap of [hs] (the heap as the cycle finds it; the target is mutated at
    will between two cycles): all the listener invocations, in order. *)
Fixpoint check_cycles (o : DirtyCheckObserver) (hs : list heap) : list (list PropertyEvent) :=
  match hs with
  | [] => []
  | h :: rest =>
      match check o h with
      | Some (o', invocations) => invocations ++ check_cycles o' rest
      | None => []
      end
  end.

End ObjectObserver.

(** The two classes [observe] chooses from. *)
Inductive ObserverClass : Type :=
| Es5Observer
| Es7Observer.

(** [new Ctor(kwArgs)] *)
Definition new (Ctor : ObserverClass) (kwArgs : ObserveArgs.t) (h : heap)
  : completion error ObjectObserver.Observer :=
  match Ctor with
  | Es5Observer => ObjectObserver.Es5Observer kwArgs h
  | Es7Observer => ObjectObserver.Es7Observer kwArgs h
  end.

(** The class of an instance. *)
Definition class_of (o : ObjectObserver.Observer) : ObserverClass :=
  match o with
  | ObjectObserver.DirtyCheck _ => Es5Observer
  | ObjectObserver.NativeChange _ => Es7Observer
  end.

(** ToBoolean of an optional boolean field: [undefined] is falsy. *)
Definition truthy (b : option bool) : bool :=
  match b with
  | Some b => b
  | None => false
  end.

Section Host.

(** [has] (./has): the feature flags of the host. *)
Variable has : string → bool.

(** The depth of the host's call stack. *)
Variable stack_limit : nat.

(** [assign] (lines 80-89) *)
Definition assign (tgt : ref) (srcs : list ref) (h : heap) : completion error (ref * heap) :=
  if has "object-assign" then Return (Object_assign tgt srcs h)
  else
    _mixin stack_limit
      {| deep := false; inherited := false; sources := srcs; target := tgt |} h.

(** [create] (lines 99-108) *)
Definition create (prototype : value) (mixins : list ref) (h : heap) : completion error (ref * heap) :=
  if bool_decide (length mixins = 0) then
    Throw (RangeError "lang.create requires at least one mixin object.")
  else
    bind (Object_create prototype h)
      (λ '(created, h'), assign created mixins h').

(** Line 211: the class [observe] instantiates. *)
Definition observe_Ctor (kwArgs : ObserveArgs.t) : ObserverClass :=
  if truthy (ObserveArgs.nextTurn kwArgs) && has "object-observe"
  then Es7Observer
  else Es5Observer.

(** [observe] (lines 210-214) *)
Definition observe (kwArgs : ObserveArgs.t) (h : heap)
  : completion error ObjectObserver.Observer :=
  let Ctor := observe_Ctor kwArgs in
  new Ctor kwArgs h.

(** [deepAssign] (lines 118-125) *)
Definition deepAssign (tgt : ref) (srcs : list ref) (h : heap) : completion error (ref * heap) :=
  _mixin stack_limit
    {| deep := true; inherited := false; sources := srcs; target := tgt |} h.

(** [deepMixin] (lines 135-142) *)
Definition deepMixin (tgt : ref) (srcs : list ref) (h : heap) : completion error (ref * heap) :=
  _mixin stack_limit
    {| deep := true; inherited := true; sources := srcs; target := tgt |} h.

(** [duplicate] (lines 151-155) *)
Definition duplicate (source : ref) (h : heap) : completion error (ref * heap) :=
  bind (Object_create (Object_getPrototypeOf h source) h)
    (λ '(tgt, h'), deepMixin tgt [source] h').

(** [mixin] (lines 201-208) *)
Definition mixin (tgt : ref) (srcs : list ref) (h : heap) : completion error (ref * heap) :=
  _mixin stack_limit
    {| deep := false; inherited := true; sources := srcs; target := tgt |} h.

End Host.

(** *** Bound functions (lines 181-193, 231-237) *)

Section Functions.

(** What a call gives back. *)
Context {Result : Type}.

(** A function, called with a [this] and the list of its arguments. *)
Definition function : Type := value → list value → Result.

(** [partial] (lines 231-237) *)
Definition partial (targetFunction : function) (suppliedArgs : list value) : function :=
  λ this arguments,
    let args :=
      match arguments with
      | [] => suppliedArgs
      | _ :: _ => suppliedArgs ++ arguments
      end in
    targetFunction this args.

(** [value.apply(this, args)] on a heap: what the host does with the value
    found under a property. *)
Variable apply : value → value → list value → heap → Result.

(** [lateBind] (lines 181-193): the function returned, called with
    [arguments] on the heap [h]. *)
Definition lateBind (instance : ref) (method : string) (suppliedArgs : list value)
  : list value → heap → Result :=
  match suppliedArgs with
  | _ :: _ =>
      λ arguments h,
        let args :=
          match arguments with
          | [] => suppliedArgs
          | _ :: _ => suppliedArgs ++ arguments
          end in
        apply (Get h instance method) (VObject instance) args h
  | [] =>
      λ arguments h,
        apply (Get h instance method) (VObject instance) arguments h
  end.

End Functions.

Arguments function : clear implicits.

End Lang.

(** ** Symbol: src/src/Symbol.ts *)

Module Shim.

(** A property of [Object.prototype] ([objPrototype], line 38). *)
Inductive prototype_property : Type :=
| BuiltIn (v : value)
    (** a built-in data property: writable, not enumerable, configurable *)
| SetterOnly.
    (** the accessor of lines 80-84: a setter and no getter, not
        enumerable, not configurable *)

(** The built-in properties of [Object.prototype] (ECMAScript 5.1,
    15.2.4): each holds a function of the host. *)
Definition Object_prototype_builtins : list string :=
  [ "constructor"; "toString"; "toLocaleString"; "valueOf";
    "hasOwnProperty"; "isPrototypeOf"; "propertyIsEnumerable" ].

Definition builtin_function (name : string) : value :=
  VObject (Host ("Object.prototype." +:+ name)).

(** The symbol objects of the shim: [Object.create(InternalSymbol.prototype)]
    with the two properties of lines 103-104. *)
Record symbol_object : Type := {
  __description__ : string;
  __name__ : string
}.

(** The state of the module. *)
Record state : Type := State {
  created : gmap string bool;
    (** [created] (line 70), an object with no prototype, used as a map *)
  objPrototype : gmap string prototype_property;
    (** the properties of [Object.prototype] *)
  globalSymbols : properties;
    (** the own properties of [globalSymbols] (line 44), an object literal:
        its prototype is [Object.prototype] *)
  symbols : list symbol_object
    (** the symbol objects allocated so far: the [n]-th is [Loc n] *)
}.

(** The state when the module starts to load. *)
Definition initial : state :=
  {| created := ∅;
     objPrototype :=
       list_to_map ((λ name, (name, BuiltIn (builtin_function name))) <$>
                      Object_prototype_builtins);
     globalSymbols := [];
     symbols := [] |}.

(** A computation of the module: [None] when a loop was cut short by its
    bound, else how the code completes and the state it leaves. *)
Definition M (A : Type) : Type := state → option (completion error A * state).

Definition ret {A : Type} (a : A) : M A := λ st, Some (Return a, st).

Definition throw {A : Type} (e : error) : M A := λ st, Some (Throw e, st).

Definition bind_M {A B : Type} (f : A → M B) (m : M A) : M B := λ st,
  match m st with
  | Some (Return a, st') => f a st'
  | Some (Throw e, st') => Some (Throw e, st')
  | None => None
  end.

#[global] Instance M_ret : MRet M := @ret.
#[global] Instance M_bind : MBind M := @bind_M.

(** [String(desc) + (postfix || '')] *)
Definition postfixed (desc : string) (postfix : nat) : string :=
  desc +:+ (match postfix with 0 => "" | S _ => pretty postfix end).

(** [created[key]] as a condition. *)
Definition is_created (reg : gmap string bool) (key : string) : bool :=
  match reg !! key with
  | Some b => b
  | None => false
  end.

(** Lines 74-76, [while (created[...]) { ++postfix; }]; [bound] is the
    number of increments allowed. *)
Fixpoint find_postfix (bound : nat) (reg : gmap string bool) (desc : string) (postfix : nat)
  : option nat :=
  if is_created reg (postfixed desc postfix) then
    match bound with
    | 0 => None
    | S bound' => find_postfix bound' reg desc (S postfix)
    end
  else Some postfix.

(** [defineProperty(objPrototype, name, { set: ... })] (lines 80-84): a
    property that is not configurable cannot be defined again. *)
Definition define_setter (name : string) : M unit := λ st,
  match objPrototype st !! name with
  | Some SetterOnly =>
      Some (Throw (TypeError ("Cannot redefine property: " +:+ name)), st)
  | _ =>
      Some (Return (),
            State (created st) (<[name := SetterOnly]> (objPrototype st))
                  (globalSymbols st) (symbols st))
  end.

(** [getSymbolName] (lines 69-87) *)
Definition getSymbolName (desc : string) : M string := λ st,
  match find_postfix (size (created st)) (created st) desc 0 with
  | None => None
  | Some postfix =>
      let desc := postfixed desc postfix in
      let st := State (<[desc := true]> (created st)) (objPrototype st)
                      (globalSymbols st) (symbols st) in
      let name := "@@" +:+ desc in
      (_ ← define_setter name ; mret name) st
  end.

(** How a function is invoked: [Symbol(d)] or [new Symbol(d)]. *)
Inductive invocation : Type :=
| Call
| Construct.

(** [this instanceof Symbol] (line 97): [new] binds [this] to an object
    made from [Symbol.prototype]; a plain call leaves it undefined. *)
Definition this_instanceof_Symbol (how : invocation) : bool :=
  match how with
  | Construct => true
  | Call => false
  end.

Section Host.

(** The host's conversion of a number to a string. *)
Variable Number_toString : float → string.

(** [description === undefined ? '' : String(description)] (line 101), for
    [description?: string|number]. *)
Definition description_string (description : option (string + float)) : string :=
  match description with
  | None => ""
  | Some (inl s) => s
  | Some (inr x) => Number_toString x
  end.

(** Lines 100-105: the object made from [InternalSymbol.prototype], with
    its two properties. *)
Definition new_symbol (description name : string) : M value := λ st,
  Some (Return (VObject (Loc (length (symbols st)))),
        State (created st) (objPrototype st) (globalSymbols st)
              (symbols st ++ [ {| __description__ := description;
                                  __name__ := name |} ])).

(** [Symbol] (lines 96-106) *)
Definition Symbol (how : invocation) (description : option (string + float)) : M value :=
  if this_instanceof_Symbol how then
    throw (TypeError "TypeError: Symbol is not a constructor")
  else
    let description := description_string description in
    name ← getSymbolName description ;
    new_symbol description name.

(** [isSymbol] (lines 113-115).  There is no native symbol among the
    values; [value['@@toStringTag']] is 'Symbol' on the objects made from
    [InternalSymbol.prototype] (line 175) and on no other value here. *)
Definition isSymbol (st : state) (v : value) : bool :=
  ToBoolean v &&
  match v with
  | VObject (Loc n) => bool_decide (is_Some (symbols st !! n))
  | _ => false
  end.

(** The host's conversion of a value to a string, for the message of
    line 124. *)
Variable ToString : value → string.

(** [validateSymbol] (lines 122-127) *)
Definition validateSymbol (v : value) : M value := λ st,
  if isSymbol st v then Some (Return v, st)
  else Some (Throw (TypeError (ToString v +:+ " is not a symbol")), st).

(** [globalSymbols[key]]: the own property, else the one of
    [Object.prototype]; an accessor with no getter reads as [undefined]. *)
Definition globalSymbols_get (st : state) (key : string) : value :=
  match lookup_property key (globalSymbols st) with
  | Some p => p_value p
  | None =>
      match objPrototype st !! key with
      | Some (BuiltIn v) => v
      | Some SetterOnly => VUndefined
      | None => VUndefined
      end
  end.

(** [globalSymbols[key] = v]: an own property is updated; failing that, a
    setter inherited from [Object.prototype] is called, and the one of
    lines 81-83 defines a property that is not enumerable on the receiver;
    failing that, an enumerable own property is added. *)
Definition globalSymbols_set (key : string) (v : value) : M unit := λ st,
  let props :=
    match lookup_property key (globalSymbols st) with
    | Some _ => assign_property key v (globalSymbols st)
    | None =>
        match objPrototype st !! key with
        | Some SetterOnly => define_property key (Property v false) (globalSymbols st)
        | _ => assign_property key v (globalSymbols st)
        end
    end in
  Some (Return (), State (created st) (objPrototype st) props (symbols st)).

(** [Symbol.for] (lines 131-136) *)
Definition Symbol_for (key : string) : M value := λ st,
  if ToBoolean (globalSymbols_get st key) then
    Some (Return (globalSymbols_get st key), st)
  else
    (sym ← Symbol Call (Some (inl key)) ;
     _ ← globalSymbols_set key sym ;
     mret sym) st.

(** Lines 140-144: the loop over the enumerable keys of [globalSymbols]
    (no property of [Object.prototype] is enumerable). *)
Fixpoint keyFor_loop (st : state) (keys : list string) (sym : value) : value :=
  match keys with
  | [] => VUndefined
  | key :: rest =>
      if strict_equals (globalSymbols_get st key) sym then VString key
      else keyFor_loop st rest sym
  end.

Definition keyFor_scan (sym : value) : M value := λ st,
  Some (Return (keyFor_loop st (enumerable_keys (globalSymbols st)) sym), st).

(** [Symbol.keyFor] (lines 137-145) *)
Definition Symbol_keyFor (sym : value) : M value :=
  _ ← validateSymbol sym ;
  keyFor_scan sym.

(** Lines 146-156: the well-known symbols made while the module loads. *)
Definition well_known : list string :=
  [ "hasInstance"; "isConcatSpreadable"; "iterator"; "match"; "replace";
    "search"; "species"; "split"; "toPrimitive"; "toStringTag";
    "unscopables" ].

Fixpoint load_symbols (names : list string) : M unit :=
  match names with
  | [] => mret ()
  | name :: rest => _ ← Symbol Call (Some (inl name)) ; load_symbols rest
  end.

(** The state once the module is loaded. *)
Definition loaded : state :=
  match load_symbols well_known initial with
  | Some (_, st) => st
  | None => initial
  end.

(** The calls a client can make. *)
Inductive operation : Type :=
| OpSymbol (how : invocation) (description : option (string + float))
| OpFor (key : string)
| OpKeyFor (sym : value).

Definition run (op : operation) : M value :=
  match op with
  | OpSymbol how description => Symbol how description
  | OpFor key => Symbol_for key
  | OpKeyFor sym => Symbol_keyFor sym
  end.

(** The states the module can be in: the initial one, and every state a
    call leaves, however the call completes. *)
Inductive reachable : state → Prop :=
| reachable_initial : reachable initial
| reachable_run (op : operation) (st st' : state) (c : completion error value) :
    reachable st → run op st = Some (c, st') → reachable st'.

(** A run of [getSymbolName] over a list of descriptions: the names
    returned, in order. *)
Fixpoint getSymbolNames (descs : list string) : M (list string) :=
  match descs with
  | [] => mret []
  | desc :: rest =>
      name ← getSymbolName desc ;
      names ← getSymbolNames rest ;
      mret (name :: names)
  end.

(** The states a sequence of calls leads to from a state. *)
Inductive reaches : state → state → Prop :=
| reaches_refl (st : state) : reaches st st
| reaches_run (op : operation) (st st' st'' : state) (c : completion error value) :
    reaches st st' → run op st' = Some (c, st'') → reaches st st''.

(** [sym.__description__] of a symbol object. *)
Definition read_description (sym : value) : M string := λ st,
  Some (Return
          match sym with
          | VObject (Loc n) => default "" (__description__ <$> symbols st !! n)
          | _ => ""
          end,
        st).

(** [Symbol.prototype.toString] (line 167):
    ['Symbol (' + validateSymbol(this).__description__ + ')']. *)
Definition Symbol_prototype_toString (this : value) : M string :=
  sym ← validateSymbol this ;
  description ← read_description sym ;
  mret ("Symbol (" +:+ description +:+ ")").

End Host.

(** [InternalSymbol.prototype.toString] (line 162), [this.__name__]: the
    [toString] a symbol object finds first on its prototype chain, which
    makes the string the symbol stands for as a property key.  A value that
    is no symbol object has no [__name__], and [undefined] and [null] have
    no property at all. *)
Definition InternalSymbol_toString (st : state) (this : value) : completion error value :=
  match this with
  | VUndefined | VNull =>
      Throw (TypeError "Cannot read property '__name__' of undefined")
  | VObject (Loc n) =>
      match symbols st !! n with
      | Some s => Return (VString (__name__ s))
      | None => Return VUndefined
      end
  | _ => Return VUndefined
  end.

(** *** Invariants of the module state *)

(** Every setter on [Object.prototype] is one [getSymbolName] defined, for
    a key it has recorded. *)
Definition setters_recorded (st : state) : Prop :=
  ∀ name, objPrototype st !! name = Some SetterOnly →
          ∃ key, name = "@@" +:+ key ∧ is_created (created st) key = true.

(** Every symbol object carries a name [getSymbolName] has recorded. *)
Definition symbols_recorded (st : state) : Prop :=
  ∀ s, s ∈ symbols st →
       ∃ key, __name__ s = "@@" +:+ key ∧ is_created (created st) key = true.

Definition recorded (st : state) : Prop :=
  setters_recorded st ∧ symbols_recorded st.

(** The registry of [Symbol.for]: every own property of [globalSymbols]
    holds a symbol object, two keys hold two symbols, and a property that
    is not enumerable got there through a setter of [Object.prototype]. *)
Definition registry_ok (st : state) : Prop :=
  (∀ key p, lookup_property key (globalSymbols st) = Some p →
            ∃ n, p_value p = VObject (Loc n) ∧ n < length (symbols st))
  ∧ (∀ key1 key2 p1 p2,
        lookup_property key1 (globalSymbols st) = Some p1 →
        lookup_property key2 (globalSymbols st) = Some p2 →
        p_value p1 = p_value p2 → key1 = key2)
  ∧ (∀ key p, lookup_property key (globalSymbols st) = Some p →
              p_enumerable p = false →
              objPrototype st !! key = Some SetterOnly).

End Shim.

(** ** Sample data *)

Module Sample.

(** A prototype with one enumerable and one hidden property, and two
    mixins that share the key "b". *)
Definition objects : heap :=
  [ Object ClassObject None
      [("x", Property (VBoolean true) true); ("hidden", Property VNull false)];
    Object ClassObject (Some (Host "Object.prototype"))
      [("a", Property (VString "1") true); ("b", Property (VString "2") true)];
    Object ClassObject (Some (Loc 0))
      [("b", Property (VString "3") true); ("c", Property (VString "4") false)] ].

(** The host's conversions, fixed for the samples. *)
Definition number_string : float → string := λ _, "NaN".
Definition value_string : value → string := λ _, "[object]".

(** The state of the shim after a list of calls, whatever they return. *)
Definition after_calls (ops : list Shim.operation) (st : Shim.state) : Shim.state :=
  fold_left
    (λ st op,
       match Shim.run number_string value_string op st with
       | Some (_, st') => st'
       | None => st
       end)
    ops st.

(** An object that holds a plain object and a string, and an empty one. *)
Definition nested : heap :=
  [ Object ClassObject (Some (Host "Object.prototype"))
      [("leaf", Property (VString "1") true)];
    Object ClassObject (Some (Loc 0))
      [("name", Property (VString "n") true); ("child", Property (VObject (Loc 0)) true)];
    Object ClassObject (Some (Host "Object.prototype")) [] ].

(** An object that holds itself, and an empty one. *)
Definition cyclic : heap :=
  [ Object ClassObject (Some (Host "Object.prototype"))
      [("name", Property (VString "n") true); ("self", Property (VObject (Loc 0)) true)];
    Object ClassObject (Some (Host "Object.prototype")) [] ].

(** Three handles on a counter: the second one throws. *)
Definition handles : list (Lang.Handle nat) :=
  [ Lang.createHandle (λ w, (S w, Return ()));
    Lang.createHandle (λ w, (w, Throw VNull));
    Lang.createHandle (λ w, (10 + w, Return ())) ].

End Sample.

(** * Properties *)

Section StrictEquality.

Lemma SFeqb_refl (f : spec_float) : f ≠ S754_nan → SFeqb f f = true.
Proof.
  intros Hf. unfold SFeqb, SFcompare.
  destruct f as [s|s| |s m e]; try done.
  - by destruct s.
  - rewrite Z.compare_refl.
    change (PosDef.Pos.compare_cont Eq m m) with (Pos.compare m m).
    rewrite Pos.compare_refl. by destruct s.
Qed.

(** A number differs from itself exactly when it is NaN. *)
Lemma float_eqb_self (x : float) :
  PrimFloat.eqb x x = false ↔ Prim2SF x = S754_nan.
Proof.
  rewrite FloatAxioms.eqb_spec. split.
  - intros H. destruct (Prim2SF x) eqn:E; try done;
      by rewrite SFeqb_refl in H.
  - by intros ->.
Qed.

Lemma strict_not_equals_self (a : value) :
  strict_not_equals a a = true ↔ is_NaN a.
Proof.
  unfold strict_not_equals, is_NaN. rewrite negb_true_iff. split.
  - destruct a; simpl; rewrite ?bool_decide_eq_false; try done.
    intros H%float_eqb_self. eauto.
  - intros (x & -> & Hx). simpl. by apply float_eqb_self.
Qed.

End StrictEquality.

(** [isIdentical a b] holds exactly when [a === b] or both are NaN. *)
Lemma isIdentical_iff (a b : value) :
  Lang.isIdentical a b = true ↔
  strict_equals a b = true ∨ (is_NaN a ∧ is_NaN b).
Proof.
  unfold Lang.isIdentical.
  by rewrite orb_true_iff, andb_true_iff, !strict_not_equals_self.
Qed.

Lemma NaN_is_NaN : is_NaN NaN.
Proof. exists PrimFloat.nan. split; [done|]. by vm_compute. Qed.

(** ** The observer factory *)


(** C4.  When the target or the listener is missing from the configuration
    record, [observe] throws an error with a message and returns no
    observer. *)
Theorem observe_rejects_invalid
  (has : string → bool) (kwArgs : Lang.ObserveArgs.t) (h : heap) :
  Lang.ObserveArgs.target kwArgs = None ∨ Lang.ObserveArgs.listener kwArgs = None →
  ∃ e, Lang.observe has kwArgs h = Throw e
       ∧ message e ≠ ""
       ∧ ∀ o, Lang.observe has kwArgs h ≠ Return o.
Proof.
  intros Hmissing.
  assert (∃ e, Lang.ObjectObserver.validate kwArgs = Throw e ∧ message e ≠ "")
    as (e & He & Hmsg).
  { unfold Lang.ObjectObserver.validate.
    destruct Hmissing as [-> | ->]; [|destruct (Lang.ObserveArgs.target kwArgs)];
      eexists; split; try reflexivity; done. }
  exists e.
  assert (Lang.observe has kwArgs h = Throw e) as Hobs.
  { unfold Lang.observe, Lang.new.
    destruct (Lang.observe_Ctor has kwArgs);
      unfold Lang.ObjectObserver.Es5Observer, Lang.ObjectObserver.Es7Observer;
      by rewrite He. }
  split_and!; [done..|]. intros o. by rewrite Hobs.
Qed.

Lemma observe_rejects_invalid_witness :
  ∃ e, Lang.observe (λ _, true)
         {| Lang.ObserveArgs.listener := None;
            Lang.ObserveArgs.nextTurn := Some true;
            Lang.ObserveArgs.onlyReportObserved := None;
            Lang.ObserveArgs.target := Some (Loc 0) |}
         [Object ClassObject None []] = Throw e
       ∧ message e ≠ ""
       ∧ ∀ o, Lang.observe (λ _, true)
                {| Lang.ObserveArgs.listener := None;
                   Lang.ObserveArgs.nextTurn := Some true;
                   Lang.ObserveArgs.onlyReportObserved := None;
                   Lang.ObserveArgs.target := Some (Loc 0) |}
                [Object ClassObject None []] ≠ Return o.
Proof.
  apply observe_rejects_invalid. right. reflexivity.
Defined.

(** ** Handles *)

Section HandleFacts.

Context {World : Type}.
Implicit Types (f : Lang.destructor_function World) (w : World).

(** Once destroyed, a handle's [destroy] does nothing, in any world. *)
Lemma destroy_destroyed f w :
  Lang.destroy (Lang.MkHandle f Lang.DestroyNothing) w =
  Lang.DestroyResult (Lang.MkHandle f Lang.DestroyNothing) w (Return ()) 0.
Proof. reflexivity. Qed.

Lemma destroy_times_destroyed f w n :
  Lang.destroy_times n (Lang.MkHandle f Lang.DestroyNothing) w =
  (Lang.MkHandle f Lang.DestroyNothing, w, replicate n (Return ()), 0).
Proof.
  induction n as [|n IH]; [done|].
  simpl. by rewrite IH.
Qed.

(** The first call invokes the destructor and leaves a destroyed handle. *)
Lemma destroy_created f w :
  Lang.destroy (Lang.createHandle f) w =
  Lang.DestroyResult (Lang.MkHandle f Lang.DestroyNothing) (f w).1 (f w).2 1.
Proof.
  unfold Lang.destroy, Lang.createHandle. simpl. by destruct (f w).
Qed.

End HandleFacts.



(** ** The dirty-check observer *)

Section ObserverFacts.

Import Lang.ObjectObserver.

Lemma snapshot_lookup_Some key (s : Snapshot) v :
  snapshot_lookup key s = Some v → key ∈ s.*1.
Proof.
  induction s as [|[k x] s IH]; [done|]. simpl.
  destruct (decide (k = key)) as [->|Hne]; [intros _; apply list_elem_of_here|].
  intros Hrest. apply list_elem_of_further. by apply IH.
Qed.

(** The names of a diff are keys of the old or of the new snapshot. *)
Lemma diff_names tgt (old new : Snapshot) ev :
  ev ∈ diff tgt old new → ev_name ev ∈ old.*1 ∨ ev_name ev ∈ new.*1.
Proof.
  unfold diff. rewrite elem_of_app, !list_elem_of_bind.
  intros [([k v] & Hev & Hin) | ([k v] & Hev & Hin)].
  - right. unfold diff_new in Hev. simpl in Hev.
    assert (ev_name ev = k) as ->.
    { destruct (snapshot_lookup k old); [destruct (Lang.isIdentical _ _)|];
        [by apply elem_of_nil in Hev|..];
        apply list_elem_of_singleton in Hev; by subst ev. }
    apply list_elem_of_fmap. by exists (k, v).
  - left. unfold diff_old in Hev. simpl in Hev.
    assert (ev_name ev = k) as ->.
    { destruct (snapshot_lookup k new); [by apply elem_of_nil in Hev|].
      apply list_elem_of_singleton in Hev; by subst ev. }
    apply list_elem_of_fmap. by exists (k, v).
Qed.

(** An update event of a diff has a new value that is not identical to the
    old one. *)
Lemma diff_update tgt (old new : Snapshot) ev :
  ev ∈ diff tgt old new → ev_type ev = EventUpdate →
  ∃ was, snapshot_lookup (ev_name ev) old = Some was
         ∧ Lang.isIdentical was (ev_value ev) = false.
Proof.
  unfold diff. rewrite elem_of_app, !list_elem_of_bind.
  intros [([k v] & Hev & Hin) | ([k v] & Hev & Hin)] Hty.
  - unfold diff_new in Hev. simpl in Hev.
    destruct (snapshot_lookup k old) as [was|] eqn:Hold.
    + destruct (Lang.isIdentical was v) eqn:Hid; [set_solver|].
      apply list_elem_of_singleton in Hev. subst ev. simpl. eauto.
    + apply list_elem_of_singleton in Hev. by subst ev.
  - unfold diff_old in Hev. simpl in Hev.
    destruct (snapshot_lookup k new); [set_solver|].
    apply list_elem_of_singleton in Hev. by subst ev.
Qed.

Lemma current_snapshot_observed (o : DirtyCheckObserver) h :
  dc_onlyReportObserved o = true →
  ∀ key, key ∈ (current_snapshot o h).*1 → key ∈ dc_observed o.
Proof.
  intros Hobs key. unfold current_snapshot. rewrite Hobs.
  rewrite list_elem_of_fmap. intros ([k v] & -> & Hin).
  by apply list_elem_of_filter in Hin as [? _].
Qed.

(** With [onlyReportObserved], the batches of all cycles name observed keys
    only, as long as the snapshot the cycles start from does. *)
Lemma check_cycles_observed (hs : list heap) :
  ∀ o : DirtyCheckObserver,
    dc_onlyReportObserved o = true →
    (∀ key, key ∈ (dc_snapshot o).*1 → key ∈ dc_observed o) →
    ∀ batch ev, batch ∈ check_cycles o hs → ev ∈ batch →
                ev_name ev ∈ dc_observed o.
Proof.
  induction hs as [|h hs IH]; intros o Hobs Hsnap batch ev; [set_solver|].
  simpl. unfold check. destruct (dc_destroyed o); [set_solver|].
  rewrite elem_of_app. intros [Hnow | Hlater] Hev.
  - destruct (diff _ _ _) as [|e es] eqn:Hdiff; [set_solver|].
    apply list_elem_of_singleton in Hnow. subst batch. rewrite <- Hdiff in Hev.
    apply diff_names in Hev as [Hold | Hnew]; [by apply Hsnap|].
    by eapply current_snapshot_observed.
  - refine (IH _ _ _ batch ev Hlater Hev); simpl; [done|].
    by apply current_snapshot_observed.
Qed.

Lemma check_cycles_nonempty (hs : list heap) :
  ∀ o : DirtyCheckObserver, [] ∉ check_cycles o hs.
Proof.
  induction hs as [|h hs IH]; intros o; [set_solver|].
  simpl. destruct (check o h) as [[o' invocations]|] eqn:Hcheck; [|set_solver].
  rewrite elem_of_app. intros [Hnow | Hlater]; [|by eapply IH].
  unfold check in Hcheck. destruct (dc_destroyed o); [done|].
  injection Hcheck as <- <-.
  destruct (diff _ _ _); [by apply elem_of_nil in Hnow|].
  by apply list_elem_of_singleton in Hnow.
Qed.

(** A destroyed observer invokes its listener no more. *)
Lemma check_cycles_destroyed (o : DirtyCheckObserver) (hs : list heap) :
  check_cycles (destroy o) hs = [].
Proof. by destruct hs. Qed.

Lemma destroy_destroy (o : DirtyCheckObserver) : destroy (destroy o) = destroy o.
Proof. done. Qed.

End ObserverFacts.

(** C6.  For a dirty-check observer created with [onlyReportObserved] set, a
    key that was not among the target's keys at creation is named by no
    event of any batch, in any check cycle, however the target is changed
    between the cycles. *)
Theorem onlyReportObserved_hides_added_keys
  (kwArgs : Lang.ObserveArgs.t) (h0 : heap)
  (o : Lang.ObjectObserver.DirtyCheckObserver) (hs : list heap) (key : string) :
  Lang.ObserveArgs.onlyReportObserved kwArgs = Some true →
  Lang.ObjectObserver.Es5Observer kwArgs h0 = Return (Lang.ObjectObserver.DirtyCheck o) →
  key ∉ (Lang.ObjectObserver.take_snapshot h0 (Lang.ObjectObserver.dc_target o)).*1 →
  ∀ batch ev,
    batch ∈ Lang.ObjectObserver.check_cycles o hs → ev ∈ batch →
    Lang.ObjectObserver.ev_name ev ≠ key.
Proof.
  intros Honly Hnew Hkey batch ev Hbatch Hev <-.
  unfold Lang.ObjectObserver.Es5Observer in Hnew.
  destruct (Lang.ObjectObserver.validate kwArgs) as [[tgt lst]|]; [|done].
  injection Hnew as <-. rewrite Honly in Hbatch. simpl in Hkey, Hbatch.
  apply Hkey.
  match type of Hbatch with
  | _ ∈ Lang.ObjectObserver.check_cycles ?o _ =>
      exact (check_cycles_observed hs o eq_refl (λ _ Hin, Hin) batch ev Hbatch Hev)
  end.
Qed.

Lemma onlyReportObserved_hides_added_keys_witness :
  Lang.ObjectObserver.check_cycles
    {| Lang.ObjectObserver.dc_target := Loc 0;
       Lang.ObjectObserver.dc_listener := Host "listener";
       Lang.ObjectObserver.dc_nextTurn := false;
       Lang.ObjectObserver.dc_onlyReportObserved := true;
       Lang.ObjectObserver.dc_observed := ["a"];
       Lang.ObjectObserver.dc_snapshot := [("a", VBoolean true)];
       Lang.ObjectObserver.dc_destroyed := false |}
    [ [Object ClassObject None
         [("a", Property (VBoolean false) true); ("b", Property VNull true)]] ]
  = [ [ {| Lang.ObjectObserver.ev_target := Loc 0;
           Lang.ObjectObserver.ev_name := "a";
           Lang.ObjectObserver.ev_type := Lang.ObjectObserver.EventUpdate;
           Lang.ObjectObserver.ev_value := VBoolean false |} ] ]
  ∧ ∀ batch ev,
      batch ∈ Lang.ObjectObserver.check_cycles
        {| Lang.ObjectObserver.dc_target := Loc 0;
           Lang.ObjectObserver.dc_listener := Host "listener";
           Lang.ObjectObserver.dc_nextTurn := false;
           Lang.ObjectObserver.dc_onlyReportObserved := true;
           Lang.ObjectObserver.dc_observed := ["a"];
           Lang.ObjectObserver.dc_snapshot := [("a", VBoolean true)];
           Lang.ObjectObserver.dc_destroyed := false |}
        [ [Object ClassObject None
             [("a", Property (VBoolean false) true); ("b", Property VNull true)]] ] →
      ev ∈ batch →
      Lang.ObjectObserver.ev_name ev ≠ "b".
Proof.
  split; [reflexivity|].
  apply (onlyReportObserved_hides_added_keys
           {| Lang.ObserveArgs.listener := Some (Host "listener");
              Lang.ObserveArgs.nextTurn := None;
              Lang.ObserveArgs.onlyReportObserved := Some true;
              Lang.ObserveArgs.target := Some (Loc 0) |}
           [Object ClassObject None [("a", Property (VBoolean true) true)]]).
  - reflexivity.
  - reflexivity.
  - simpl. intros Hin. apply list_elem_of_singleton in Hin. discriminate.
Defined.

(** C7.  In every check cycle of a dirty-check observer the listener is
    invoked exactly once, with the whole batch, when the diff of the old
    snapshot against the new one is not empty, and is not invoked when it
    is empty; no invocation, in any cycle, passes an empty batch. *)
Theorem check_invokes_listener_once
  (o : Lang.ObjectObserver.DirtyCheckObserver) (h : heap) :
  Lang.ObjectObserver.dc_destroyed o = false →
  let batch :=
    Lang.ObjectObserver.diff (Lang.ObjectObserver.dc_target o)
      (Lang.ObjectObserver.dc_snapshot o)
      (Lang.ObjectObserver.current_snapshot o h) in
  ∃ o' invocations,
    Lang.ObjectObserver.check o h = Some (o', invocations)
    ∧ (batch ≠ [] → invocations = [batch])
    ∧ (batch = [] → invocations = [])
    ∧ ([] ∉ invocations)
    ∧ (∀ hs, [] ∉ Lang.ObjectObserver.check_cycles o hs).
Proof.
  intros Hlive batch. unfold Lang.ObjectObserver.check. rewrite Hlive.
  fold batch. do 2 eexists. split; [reflexivity|].
  split_and!; [| | |intros hs; apply check_cycles_nonempty];
    destruct batch as [|ev evs]; try done.
  - apply not_elem_of_nil.
  - intros Hin. by apply list_elem_of_singleton in Hin.
Qed.

Lemma check_invokes_listener_once_witness :
  ∃ o' invocations,
    Lang.ObjectObserver.check
      {| Lang.ObjectObserver.dc_target := Loc 0;
         Lang.ObjectObserver.dc_listener := Host "listener";
         Lang.ObjectObserver.dc_nextTurn := false;
         Lang.ObjectObserver.dc_onlyReportObserved := false;
         Lang.ObjectObserver.dc_observed := ["a"];
         Lang.ObjectObserver.dc_snapshot := [("a", VBoolean true)];
         Lang.ObjectObserver.dc_destroyed := false |}
      [Object ClassObject None [("b", Property VNull true)]]
    = Some (o', invocations)
    ∧ invocations =
        [ [ {| Lang.ObjectObserver.ev_target := Loc 0;
               Lang.ObjectObserver.ev_name := "b";
               Lang.ObjectObserver.ev_type := Lang.ObjectObserver.EventAdd;
               Lang.ObjectObserver.ev_value := VNull |};
            {| Lang.ObjectObserver.ev_target := Loc 0;
               Lang.ObjectObserver.ev_name := "a";
               Lang.ObjectObserver.ev_type := Lang.ObjectObserver.EventDelete;
               Lang.ObjectObserver.ev_value := VUndefined |} ] ].
Proof.
  destruct (check_invokes_listener_once
              {| Lang.ObjectObserver.dc_target := Loc 0;
                 Lang.ObjectObserver.dc_listener := Host "listener";
                 Lang.ObjectObserver.dc_nextTurn := false;
                 Lang.ObjectObserver.dc_onlyReportObserved := false;
                 Lang.ObjectObserver.dc_observed := ["a"];
                 Lang.ObjectObserver.dc_snapshot := [("a", VBoolean true)];
                 Lang.ObjectObserver.dc_destroyed := false |}
              [Object ClassObject None [("b", Property VNull true)]]
              eq_refl)
    as (o' & invocations & Hcheck & Hsome & _).
  exists o', invocations. split; [exact Hcheck|].
  apply Hsome. discriminate.
Defined.

(** ** Identity of values *)

(** C2.  [isIdentical a b] holds exactly when [a === b] or both [a] and [b]
    are NaN; in particular [isIdentical NaN NaN] holds, and the diff of the
    dirty-check observer has no update event for a property whose value was
    NaN and is NaN again. *)
Theorem isIdentical_spec :
  (∀ a b : value,
      Lang.isIdentical a b = true ↔
      strict_equals a b = true ∨ (is_NaN a ∧ is_NaN b))
  ∧ Lang.isIdentical NaN NaN = true
  ∧ (∀ tgt old new ev was,
        ev ∈ Lang.ObjectObserver.diff tgt old new →
        Lang.ObjectObserver.snapshot_lookup (Lang.ObjectObserver.ev_name ev) old = Some was →
        is_NaN was → is_NaN (Lang.ObjectObserver.ev_value ev) →
        Lang.ObjectObserver.ev_type ev ≠ Lang.ObjectObserver.EventUpdate).
Proof.
  split_and!.
  - apply isIdentical_iff.
  - apply isIdentical_iff. right. split; apply NaN_is_NaN.
  - intros tgt old new ev was Hev Hold Hwas Hnow Hupdate.
    destruct (diff_update tgt old new ev Hev Hupdate) as (was' & Hold' & Hdiffer).
    rewrite Hold in Hold'. injection Hold' as <-.
    assert (Lang.isIdentical was (Lang.ObjectObserver.ev_value ev) = true) as Hsame
      by (apply isIdentical_iff; by right).
    congruence.
Qed.

(** ** The Symbol shim *)

(** Unfolds the sequencing of the computations of the shim. *)
Ltac unfold_M := unfold mbind, Shim.M_bind, Shim.bind_M.

Section ShimFacts.

Import Shim.

Lemma pretty_N_go_length (x : N) (s : string) :
  String.length s ≤ String.length (pretty_N_go x s).
Proof.
  revert s. induction (N.lt_wf_0 x) as [x _ IH]; intros s.
  destruct (decide (x = 0)%N) as [->|Hx]; [by rewrite pretty_N_go_0|].
  rewrite pretty_N_go_step by lia.
  etrans; [|apply IH, N.div_lt; lia]. simpl. lia.
Qed.

Lemma pretty_S_nonempty (n : nat) : pretty (S n) ≠ "".
Proof.
  unfold pretty, pretty_nat, pretty, pretty_N.
  case_decide; [lia|]. intros Hempty.
  rewrite pretty_N_go_step in Hempty by lia.
  pose proof (pretty_N_go_length (N.of_nat (S n) `div` 10)
                (String (pretty_N_char (N.of_nat (S n) `mod` 10)) "")) as Hlen.
  rewrite Hempty in Hlen. simpl in Hlen. lia.
Qed.

(** Two postfixes of one description give two keys. *)
Lemma postfixed_inj (desc : string) : Inj (=) (=) (postfixed desc).
Proof.
  intros p q H. unfold postfixed in H. apply (inj (String.app desc)) in H.
  destruct p, q; try done.
  - by destruct (pretty_S_nonempty q).
  - by destruct (pretty_S_nonempty p).
  - by apply (inj pretty) in H.
Qed.

Lemma is_created_dom (reg : gmap string bool) key :
  is_created reg key = true → key ∈ dom reg.
Proof.
  unfold is_created. destruct (reg !! key) eqn:Hkey; [|done].
  intros _. apply elem_of_dom. eauto.
Qed.

Lemma is_created_insert (reg : gmap string bool) key key' :
  is_created (<[key := true]> reg) key' =
  if decide (key = key') then true else is_created reg key'.
Proof.
  unfold is_created. rewrite lookup_insert. by case_decide.
Qed.

(** The loop of lines 74-76 stops within [size reg] increments, at the
    first postfix whose key is free. *)
Lemma find_postfix_stops (reg : gmap string bool) (desc : string) :
  ∀ (bound p : nat) (X : gset string),
    size X ≤ bound →
    (∀ q, p ≤ q → is_created reg (postfixed desc q) = true → postfixed desc q ∈ X) →
    ∃ r, find_postfix bound reg desc p = Some r
         ∧ p ≤ r
         ∧ is_created reg (postfixed desc r) = false
         ∧ ∀ q, p ≤ q < r → is_created reg (postfixed desc q) = true.
Proof.
  induction bound as [|bound IH]; intros p X Hsize Hkeys.
  - assert (X ≡ ∅) as HX by (apply size_empty_iff; lia).
    simpl. destruct (is_created reg (postfixed desc p)) eqn:Hp.
    + exfalso. apply (not_elem_of_empty (C := gset string) (postfixed desc p)).
      rewrite <- HX. by apply Hkeys.
    + exists p. split_and!; [done..|]. intros q ?; lia.
  - simpl. destruct (is_created reg (postfixed desc p)) eqn:Hp.
    + destruct (IH (S p) (X ∖ {[postfixed desc p]})) as (r & Hr & Hle & Hfree & Hbelow).
      * assert (postfixed desc p ∈ X) as Hin by (by apply Hkeys).
        rewrite size_difference by set_solver.
        rewrite size_singleton.
        assert (size X ≠ 0); [|lia].
        apply size_non_empty_iff. set_solver.
      * intros q Hq Hcreated. apply elem_of_difference. split.
        -- apply Hkeys; [lia|done].
        -- rewrite elem_of_singleton. intros Heq%postfixed_inj. lia.
      * exists r. split_and!; [done|lia|done|].
        intros q Hq. destruct (decide (q = p)) as [->|]; [done|].
        apply Hbelow. lia.
    + exists p. split_and!; [done..|]. intros q ?; lia.
Qed.

Lemma find_postfix_total (reg : gmap string bool) (desc : string) :
  ∃ r, find_postfix (size reg) reg desc 0 = Some r
       ∧ is_created reg (postfixed desc r) = false
       ∧ ∀ q, q < r → is_created reg (postfixed desc q) = true.
Proof.
  destruct (find_postfix_stops reg desc (size reg) 0 (dom reg))
    as (r & Hr & _ & Hfree & Hbelow).
  - by rewrite size_dom.
  - intros q _. apply is_created_dom.
  - exists r. split_and!; [done..|]. intros q Hq. apply Hbelow. lia.
Qed.

Lemma initial_setters_recorded : setters_recorded initial.
Proof.
  intros name. unfold initial. simpl. intros Hname.
  rewrite !lookup_insert, lookup_empty in Hname.
  by repeat case_decide.
Qed.

Lemma initial_symbols_recorded : symbols_recorded initial.
Proof. intros s Hs. by apply elem_of_nil in Hs. Qed.

(** [getSymbolName] returns: it records the first free key and names the
    symbol after it. *)
Lemma getSymbolName_returns (st : state) (desc : string) :
  setters_recorded st →
  ∃ p,
    is_created (created st) (postfixed desc p) = false
    ∧ (∀ q, q < p → is_created (created st) (postfixed desc q) = true)
    ∧ getSymbolName desc st =
        Some (Return ("@@" +:+ postfixed desc p),
              State (<[postfixed desc p := true]> (created st))
                    (<["@@" +:+ postfixed desc p := SetterOnly]> (objPrototype st))
                    (globalSymbols st) (symbols st)).
Proof.
  intros Hsetters.
  destruct (find_postfix_total (created st) desc) as (p & Hp & Hfree & Hbelow).
  exists p. split_and!; [done..|].
  unfold getSymbolName. rewrite Hp.
  unfold mbind, M_bind, bind_M, define_setter. simpl.
  destruct (objPrototype st !! ("@@" +:+ postfixed desc p)) as [[v|]|] eqn:Hproto;
    try done.
  apply Hsetters in Hproto as (key & Hkey%(inj (String.app "@@")) & Hcreated).
  congruence.
Qed.

Lemma getSymbolName_setters_recorded st desc p :
  setters_recorded st →
  setters_recorded
    (State (<[postfixed desc p := true]> (created st))
           (<["@@" +:+ postfixed desc p := SetterOnly]> (objPrototype st))
           (globalSymbols st) (symbols st)).
Proof.
  intros Hsetters name. simpl. rewrite lookup_insert. case_decide as Hname.
  - intros _. exists (postfixed desc p). split; [done|].
    rewrite is_created_insert. by case_decide.
  - intros (key & -> & Hkey)%Hsetters. exists key. split; [done|].
    rewrite is_created_insert. by case_decide.
Qed.


(** A run of [getSymbolName] returns as many names as it has calls, all
    different, each for a key that was free before the run. *)
Lemma getSymbolNames_distinct (descs : list string) :
  ∀ st, setters_recorded st →
    ∃ names st',
      getSymbolNames descs st = Some (Return names, st')
      ∧ length names = length descs
      ∧ NoDup names
      ∧ (∀ name, name ∈ names →
           ∃ key, name = "@@" +:+ key
                  ∧ is_created (created st) key = false
                  ∧ is_created (created st') key = true)
      ∧ (∀ key, is_created (created st) key = true →
                is_created (created st') key = true).
Proof.
  induction descs as [|desc descs IH]; intros st Hsetters.
  - exists [], st. split_and!; [done|done|constructor| |done].
    intros name Hname. by apply elem_of_nil in Hname.
  - destruct (getSymbolName_returns st desc Hsetters) as (p & Hfree & _ & Hcall).
    set (key0 := postfixed desc p) in *.
    set (st1 := State _ _ _ _) in Hcall.
    destruct (IH st1) as (names & st' & Hrun & Hlen & Hnodup & Hnames & Hmono).
    { by apply getSymbolName_setters_recorded. }
    assert (is_created (created st1) key0 = true) as Hkey0.
    { unfold st1. simpl. rewrite is_created_insert. by case_decide. }
    exists (("@@" +:+ key0) :: names), st'. split_and!.
    + cbn [getSymbolNames]. unfold_M.
      rewrite Hcall. fold (@bind_M (list string) (list string)).
      unfold bind_M. by rewrite Hrun.
    + simpl. by rewrite Hlen.
    + constructor; [|done].
      intros (key & Hkey%(inj (String.app "@@")) & Hfree1 & _)%Hnames.
      congruence.
    + intros name [->|Hin]%elem_of_cons.
      * exists key0. split_and!; [done..|]. by apply Hmono.
      * destruct (Hnames name Hin) as (key & -> & Hfree1 & Hdone).
        exists key. split_and!; [done| |done].
        unfold st1 in Hfree1. simpl in Hfree1.
        rewrite is_created_insert in Hfree1. by case_decide.
    + intros key Hkey. apply Hmono. unfold st1. simpl.
      rewrite is_created_insert. by case_decide.
Qed.

(** Calls with one description take the postfixes in turn. *)
Lemma getSymbolNames_same (desc : string) (n : nat) :
  ∀ (i : nat) (st : state),
    setters_recorded st →
    (∀ q, q < i → is_created (created st) (postfixed desc q) = true) →
    (∀ q, i ≤ q → is_created (created st) (postfixed desc q) = false) →
    ∃ st',
      getSymbolNames (replicate n desc) st =
      Some (Return ((λ p, "@@" +:+ postfixed desc p) <$> seq i n), st').
Proof.
  induction n as [|n IH]; intros i st Hsetters Hbelow Habove.
  - by exists st.
  - destruct (getSymbolName_returns st desc Hsetters) as (p & Hfree & Htaken & Hcall).
    assert (p = i) as ->.
    { destruct (decide (p < i)) as [Hlt|Hge].
      - rewrite Hbelow in Hfree by done. done.
      - destruct (decide (i < p)) as [Hlt|]; [|lia].
        specialize (Htaken i Hlt). rewrite Habove in Htaken by lia. done. }
    set (st1 := State _ _ _ _) in Hcall.
    destruct (IH (S i) st1) as (st' & Hrun).
    + by apply getSymbolName_setters_recorded.
    + intros q Hq. unfold st1. simpl. rewrite is_created_insert.
      case_decide; [done|]. apply Hbelow.
      assert (q ≠ i) by congruence. lia.
    + intros q Hq. unfold st1. simpl. rewrite is_created_insert.
      case_decide as Heq; [apply postfixed_inj in Heq; lia|].
      apply Habove. lia.
    + exists st'. cbn [getSymbolNames replicate]. unfold_M.
      rewrite Hcall. fold (@bind_M (list string) (list string)).
      unfold bind_M. by rewrite Hrun.
Qed.


Section Reachable.

Variable Number_toString : float → string.
Variable ToString : value → string.

(** A plain call of [Symbol] returns a new symbol object, named after a
    key that was free. *)
Lemma Symbol_call_returns (st : state) (d : option (string + float)) :
  setters_recorded st →
  ∃ key,
    is_created (created st) key = false
    ∧ Symbol Number_toString Call d st =
        Some (Return (VObject (Loc (length (symbols st)))),
              State (<[key := true]> (created st))
                    (<["@@" +:+ key := SetterOnly]> (objPrototype st))
                    (globalSymbols st)
                    (symbols st ++
                       [ {| __description__ := description_string Number_toString d;
                            __name__ := "@@" +:+ key |} ])).
Proof.
  intros Hsetters.
  destruct (getSymbolName_returns st (description_string Number_toString d) Hsetters)
    as (p & Hfree & _ & Hcall).
  eexists. split; [exact Hfree|].
  unfold Symbol. simpl. unfold_M. by rewrite Hcall.
Qed.

Lemma Symbol_call_recorded (st : state) key description :
  recorded st →
  recorded
    (State (<[key := true]> (created st))
           (<["@@" +:+ key := SetterOnly]> (objPrototype st))
           (globalSymbols st)
           (symbols st ++ [ {| __description__ := description;
                               __name__ := "@@" +:+ key |} ])).
Proof.
  intros [Hsetters Hsymbols]. split.
  - intros name. simpl. rewrite lookup_insert. case_decide as Hname.
    + intros _. exists key. split; [done|].
      rewrite is_created_insert. by case_decide.
    + intros (key' & -> & Hkey)%Hsetters. exists key'. split; [done|].
      rewrite is_created_insert. by case_decide.
  - intros s. simpl. rewrite elem_of_app, list_elem_of_singleton.
    intros [(key' & Hname & Hkey)%Hsymbols | ->].
    + exists key'. split; [done|]. rewrite is_created_insert. by case_decide.
    + exists key. split; [done|]. rewrite is_created_insert. by case_decide.
Qed.

Lemma recorded_globalSymbols reg proto (props props' : properties) syms :
  recorded (State reg proto props syms) →
  recorded (State reg proto props' syms).
Proof. by intros [? ?]. Qed.

Lemma run_recorded (op : operation) (st st' : state) (c : completion error value) :
  recorded st →
  run Number_toString ToString op st = Some (c, st') →
  recorded st'.
Proof.
  intros Hst. destruct op as [[] d|key|sym]; simpl.
  - destruct (Symbol_call_returns st d (proj1 Hst)) as (key & _ & ->).
    intros [= _ <-]. by apply Symbol_call_recorded.
  - by intros [= _ <-].
  - unfold Symbol_for. destruct (ToBoolean _); [by intros [= _ <-]|].
    unfold_M.
    destruct (Symbol_call_returns st (Some (inl key)) (proj1 Hst)) as (k & _ & ->).
    simpl. intros [= _ <-].
    by eapply recorded_globalSymbols, (Symbol_call_recorded st k key).
  - unfold Symbol_keyFor, mbind, M_bind, bind_M, validateSymbol, keyFor_scan.
    destruct (isSymbol st sym); by intros [= _ <-].
Qed.

Lemma reachable_recorded (st : state) :
  reachable Number_toString ToString st → recorded st.
Proof.
  induction 1 as [|op st st' c _ IH Hrun].
  - split; [apply initial_setters_recorded | apply initial_symbols_recorded].
  - by eapply run_recorded.
Qed.

End Reachable.

End ShimFacts.

(** C9.  Invoked with [new], the shimmed [Symbol] throws a TypeError,
    whatever the description.  Invoked as a plain function it returns a new
    symbol object that carries the description as a string ([undefined]
    gives the empty string) and a name that no symbol made before carries. *)
Theorem Symbol_call_and_construct
  (Number_toString : float → string) (ToString : value → string)
  (st : Shim.state) (d : option (string + float)) :
  Shim.reachable Number_toString ToString st →
  Shim.Symbol Number_toString Shim.Construct d st =
    Some (Throw (TypeError "TypeError: Symbol is not a constructor"), st)
  ∧ ∃ name st',
      Shim.Symbol Number_toString Shim.Call d st =
        Some (Return (VObject (Loc (length (Shim.symbols st)))), st')
      ∧ Shim.symbols st' =
          Shim.symbols st ++
            [ {| Shim.__description__ :=
                   match d with
                   | None => ""
                   | Some (inl s) => s
                   | Some (inr x) => Number_toString x
                   end;
                 Shim.__name__ := name |} ]
      ∧ Shim.isSymbol st' (VObject (Loc (length (Shim.symbols st)))) = true
      ∧ (∀ s, s ∈ Shim.symbols st → Shim.__name__ s ≠ name).
Proof.
  intros [Hsetters Hsymbols]%reachable_recorded. split; [done|].
  destruct (Symbol_call_returns Number_toString st d Hsetters) as (key & Hfree & Hcall).
  eexists _, _. split; [exact Hcall|]. simpl. split_and!.
  - done.
  - apply bool_decide_eq_true. exists {|
      Shim.__description__ := Shim.description_string Number_toString d;
      Shim.__name__ := "@@" +:+ key |}.
    cbn [Shim.symbols]. by rewrite lookup_app_r, Nat.sub_diag.
  - intros s (key' & Hname & Hkey)%Hsymbols Heq. rewrite Hname in Heq.
    apply (inj (String.app "@@")) in Heq. congruence.
Qed.

Lemma Symbol_call_and_construct_witness :
  Shim.Symbol (λ _, "NaN") Shim.Construct (Some (inl "id")) Shim.initial =
    Some (Throw (TypeError "TypeError: Symbol is not a constructor"), Shim.initial)
  ∧ ∃ name st',
      Shim.Symbol (λ _, "NaN") Shim.Call (Some (inl "id")) Shim.initial =
        Some (Return (VObject (Loc 0)), st')
      ∧ Shim.symbols st' =
          [ {| Shim.__description__ := "id"; Shim.__name__ := name |} ]
      ∧ Shim.isSymbol st' (VObject (Loc 0)) = true
      ∧ (∀ s, s ∈ Shim.symbols Shim.initial → Shim.__name__ s ≠ name).
Proof.
  apply (Symbol_call_and_construct (λ _, "NaN") (λ _, "") Shim.initial (Some (inl "id"))).
  apply Shim.reachable_initial.
Defined.

(** C8, at the key "toString".  Once the module is loaded, [Symbol.for]
    returns for this key the function of the host that [globalSymbols]
    inherits from [Object.prototype]: it is not a symbol, and [Symbol.keyFor]
    throws a TypeError on it instead of returning the key. *)
Theorem Symbol_for_inherited_key
  (Number_toString : float → string) (ToString : value → string) :
  let st := Shim.loaded Number_toString in
  let found := VObject (Host "Object.prototype.toString") in
  Shim.Symbol_for Number_toString "toString" st = Some (Return found, st)
  ∧ Shim.isSymbol st found = false
  ∧ Shim.Symbol_keyFor ToString found st =
      Some (Throw (TypeError (ToString found +:+ " is not a symbol")), st).
Proof.
  intros st found.
  assert (Shim.globalSymbols_get st "toString" = found) as Hget by (by vm_compute).
  split_and!.
  - unfold Shim.Symbol_for. by rewrite Hget.
  - done.
  - done.
Qed.

(** C5.  [getSymbolName] allocates unique names: whatever the descriptions
    of a sequence of calls, every call returns, and the names returned are
    pairwise different; calls with one and the same description get the
    postfixes 0 (written as nothing), 1, 2, ... in turn. *)
Theorem getSymbolName_allocates_unique_names :
  (∀ descs : list string,
      ∃ names st,
        Shim.getSymbolNames descs Shim.initial = Some (Return names, st)
        ∧ length names = length descs
        ∧ NoDup names)
  ∧ (∀ (desc : string) (n : nat),
        ∃ st,
          Shim.getSymbolNames (replicate n desc) Shim.initial =
          Some (Return ((λ p, "@@" +:+ Shim.postfixed desc p) <$> seq 0 n), st)).
Proof.
  split.
  - intros descs.
    destruct (getSymbolNames_distinct descs Shim.initial initial_setters_recorded)
      as (names & st & Hrun & Hlen & Hnodup & _).
    by exists names, st.
  - intros desc n.
    apply getSymbolNames_same; [apply initial_setters_recorded| |done].
    intros q Hq. lia.
Qed.

(** ** Mixins *)

Section MixinFacts.

Import Lang.

Lemma lookup_assign_property key key' v (props : properties) :
  lookup_property key (assign_property key' v props) =
  if decide (key' = key)
  then Some (Property v (match lookup_property key props with
                         | Some p => p_enumerable p
                         | None => true
                         end))
  else lookup_property key props.
Proof.
  induction props as [|[k p] props IH]; simpl.
  - by case_decide.
  - destruct (decide (k = key')) as [->|Hk]; simpl.
    + by case_decide.
    + destruct (decide (k = key)) as [->|Hk'].
      * by rewrite decide_False by done.
      * exact IH.
Qed.

Lemma lookup_property_is_Some key (props : properties) :
  is_Some (lookup_property key props) ↔ key ∈ props.*1.
Proof.
  induction props as [|[k p] props IH]; simpl.
  - rewrite elem_of_nil. split; [by intros [? ?]|done].
  - rewrite elem_of_cons. destruct (decide (k = key)) as [->|Hk].
    + split; eauto.
    + rewrite IH. split; [by right|]. by intros [?|?].
Qed.

Lemma copied_nil wanted from key : copied wanted from [] key = None.
Proof.
  unfold copied. destruct (lookup_property key from); [|done].
  by rewrite decide_False by apply not_elem_of_nil.
Qed.

Lemma copied_cons wanted from k keys key :
  copied wanted from (k :: keys) key =
  match copied wanted from keys key with
  | Some v => Some v
  | None => copied wanted from [k] key
  end.
Proof.
  unfold copied. destruct (lookup_property key from) as [p|]; [|done].
  destruct (decide (key ∈ keys)) as [Hin|Hout].
  - rewrite decide_True by (apply elem_of_cons; by right).
    destruct (wanted p); [done|]. by destruct (decide (key ∈ [k])).
  - destruct (decide (key = k)) as [->|Hk].
    + by rewrite !decide_True by apply list_elem_of_here.
    + rewrite !decide_False; [done| |].
      * by rewrite list_elem_of_singleton.
      * rewrite elem_of_cons. by intros [?|?].
Qed.

Lemma all_enumerable_assign key v (props : properties) :
  all_enumerable props → all_enumerable (assign_property key v props).
Proof.
  intros Hall key' q. rewrite lookup_assign_property.
  case_decide; [|apply Hall].
  intros [= <-]. simpl. destruct (lookup_property key' props) eqn:Hq; [|done].
  by eapply Hall.
Qed.

Lemma lookup_copy_properties wanted from keys :
  ∀ to key,
    all_enumerable to →
    lookup_property key (copy_properties wanted from keys to) =
    match copied wanted from keys key with
    | Some v => Some (Property v true)
    | None => lookup_property key to
    end
    ∧ all_enumerable (copy_properties wanted from keys to).
Proof.
  induction keys as [|k keys IH]; intros to key Hto.
  - by rewrite copied_nil.
  - cbn [copy_properties].
    set (to' := match lookup_property k from with
                | Some p => if wanted p then assign_property k (p_value p) to else to
                | None => to
                end).
    assert (all_enumerable to') as Hto'.
    { unfold to'. destruct (lookup_property k from) as [p|]; [|done].
      destruct (wanted p); [|done]. by apply all_enumerable_assign. }
    destruct (IH to' key Hto') as [-> Hall]. split; [|done].
    rewrite copied_cons. destruct (copied wanted from keys key); [done|].
    unfold to', copied. destruct (decide (key = k)) as [->|Hk].
    + destruct (lookup_property k from) as [p|]; [|done].
      rewrite decide_True by apply list_elem_of_here.
      destruct (wanted p); [|done].
      rewrite lookup_assign_property, decide_True by done.
      destruct (lookup_property k to) eqn:Hq; [|done].
      by rewrite (Hto _ _ Hq).
    + assert (lookup_property key to' = lookup_property key to) as Hsame.
      { unfold to'. destruct (lookup_property k from) as [q|]; [|done].
        destruct (wanted q); [|done].
        by rewrite lookup_assign_property, decide_False. }
      fold to'. rewrite Hsame.
      destruct (lookup_property key from); [|done].
      rewrite decide_False; [done|]. by rewrite list_elem_of_singleton.
Qed.

Lemma all_enumerable_copy_properties wanted from keys to :
  all_enumerable to → all_enumerable (copy_properties wanted from keys to).
Proof. intros Hto. by destruct (lookup_copy_properties wanted from keys to "" Hto). Qed.

(** The keys [for (key in r)] visits in the object itself. *)
Lemma visit_properties_keys (props : properties) :
  ∀ seen key,
    key ∈ (visit_properties props seen).1 ↔
    (key ∉ seen) ∧ ∃ p, lookup_property key props = Some p ∧ p_enumerable p = true.
Proof.
  induction props as [|[k p] props IH]; intros seen key; simpl.
  - rewrite elem_of_nil. split; [done|]. by intros (_ & q & ? & _).
  - destruct (decide (k ∈ seen)) as [Hseen|Hnew].
    + rewrite IH. destruct (decide (k = key)) as [->|Hk]; [|done].
      split; by intros [? _].
    + specialize (IH (seen ++ [k]) key).
      destruct (visit_properties props (seen ++ [k])) as [keys seen'].
      simpl in *. destruct (decide (k = key)) as [->|Hk].
      * destruct (p_enumerable p) eqn:Hp.
        -- split; [|intros _; apply list_elem_of_here].
           intros _. split; [done|]. by exists p.
        -- rewrite IH. split.
           ++ intros [Hnot _]. destruct Hnot. apply elem_of_app. right.
              apply list_elem_of_here.
           ++ intros (_ & q & [= <-] & Hq). congruence.
      * assert (key ∈ (if p_enumerable p then k :: keys else keys) ↔ key ∈ keys)
          as ->.
        { destruct (p_enumerable p); [|done]. rewrite elem_of_cons.
          split; [by intros [?|?]|by right]. }
        rewrite IH, elem_of_app, list_elem_of_singleton. split.
        -- intros [Hnot Hq]. split; [|done]. intros Hin. apply Hnot. by left.
        -- intros [Hnot Hq]. split; [|done]. by intros [?|?].
Qed.

Lemma visit_properties_seen (props : properties) :
  ∀ seen key,
    key ∈ seen ∨ key ∈ props.*1 → key ∈ (visit_properties props seen).2.
Proof.
  induction props as [|[k p] props IH]; intros seen key; simpl.
  - rewrite elem_of_nil. by intros [?|?].
  - rewrite elem_of_cons. destruct (decide (k ∈ seen)) as [Hseen|Hnew].
    + intros [?|[->|?]]; apply IH; auto.
    + specialize (IH (seen ++ [k]) key).
      destruct (visit_properties props (seen ++ [k])) as [keys seen'].
      simpl in *. rewrite elem_of_app, list_elem_of_singleton in IH.
      intros [?|[->|?]]; apply IH; auto.
Qed.

Lemma for_in_chain_unseen (h : heap) :
  ∀ fuel o seen key, key ∈ for_in_chain fuel h o seen → key ∉ seen.
Proof.
  induction fuel as [|fuel IH]; intros o seen key; simpl; [by rewrite elem_of_nil|].
  destruct o as [r|]; [|by rewrite elem_of_nil].
  pose proof (visit_properties_keys (own_properties h r) seen key) as Hkeys.
  pose proof (visit_properties_seen (own_properties h r) seen key) as Hseen.
  destruct (visit_properties (own_properties h r) seen) as [keys seen'].
  simpl in *. rewrite elem_of_app. intros [Hown | Hchain].
  - by apply Hkeys in Hown as [? _].
  - apply IH in Hchain. intros Hin. apply Hchain, Hseen. by left.
Qed.

(** Among its own keys, [for (key in r)] visits the enumerable ones. *)
Lemma for_in_own (h : heap) (r : ref) (key : string) (p : property) :
  lookup_property key (own_properties h r) = Some p →
  key ∈ for_in h r ↔ p_enumerable p = true.
Proof.
  intros Hp. unfold for_in. simpl.
  pose proof (visit_properties_keys (own_properties h r) [] key) as Hkeys.
  pose proof (visit_properties_seen (own_properties h r) [] key) as Hseen.
  destruct (visit_properties (own_properties h r) []) as [keys seen'].
  simpl in *. rewrite elem_of_app, Hkeys. split.
  - intros [(_ & q & Hq & Henum) | Hchain]; [congruence|].
    apply for_in_chain_unseen in Hchain. destruct Hchain. apply Hseen. right.
    apply lookup_property_is_Some. eauto.
  - intros Henum. left. split; [apply not_elem_of_nil|eauto].
Qed.

Lemma Get_own (h : heap) (r : ref) (key : string) (p : property) :
  lookup_property key (own_properties h r) = Some p →
  Get h r key = p_value p.
Proof. intros Hp. unfold Get. simpl. by rewrite Hp. Qed.


(** *** The heap around a new object *)

Lemma heap_get_new (h : heap) (o : object) :
  heap_get (h ++ [o]) (Loc (length h)) = Some o.
Proof. cbn [heap_get]. by rewrite lookup_app_r, Nat.sub_diag. Qed.

Lemma heap_get_old (h : heap) (o : object) (r : ref) :
  allocated h r → heap_get (h ++ [o]) r = heap_get h r.
Proof.
  destruct r as [name|n]; cbn [heap_get allocated]; [done|].
  intros Hn. by rewrite lookup_app_l.
Qed.

Lemma heap_set_new (h : heap) (o o' : object) :
  heap_set (h ++ [o]) (Loc (length h)) o' = h ++ [o'].
Proof.
  cbn [heap_set]. by rewrite insert_app_r_alt, Nat.sub_diag.
Qed.

Lemma own_properties_old (h : heap) (o : object) (r : ref) :
  allocated h r → own_properties (h ++ [o]) r = own_properties h r.
Proof. intros Hr. unfold own_properties. by rewrite heap_get_old. Qed.

Lemma allocated_not_new (h : heap) (r : ref) :
  allocated h r → r ≠ Loc (length h).
Proof. destruct r as [name|n]; simpl; [done|]. intros Hn [= ->]. lia. Qed.

Lemma Set_new (h : heap) (t : object) key v :
  Set_ (h ++ [t]) (Loc (length h)) key v =
  h ++ [Object (o_class t) (o_proto t) (assign_property key v (o_props t))].
Proof. unfold Set_. by rewrite heap_get_new, heap_set_new. Qed.

(** What the two loops copy from one source is its own enumerable
    properties. *)
Lemma copied_for_in (h : heap) (source : ref) (key : string) :
  copied (λ _, true) (own_properties h source) (for_in h source) key =
  own_enumerable h source key.
Proof.
  unfold copied, own_enumerable.
  destruct (lookup_property key (own_properties h source)) as [p|] eqn:Hp; [|done].
  pose proof (for_in_own h source key p Hp) as Hin.
  destruct (p_enumerable p).
  - by rewrite decide_True by by apply Hin.
  - rewrite decide_False; [done|]. intros Hkey. by apply Hin in Hkey.
Qed.

Lemma copied_own_keys (h : heap) (source : ref) (key : string) :
  copied p_enumerable (own_properties h source) (own_properties h source).*1 key =
  own_enumerable h source key.
Proof.
  unfold copied, own_enumerable.
  destruct (lookup_property key (own_properties h source)) as [p|] eqn:Hp; [|done].
  rewrite decide_True; [done|]. apply lookup_property_is_Some. eauto.
Qed.

Section ShallowMixin.

Variable h : heap.
Variable kwArgs : MixinArgs.
Variable copy : value → heap → completion error (value * heap).

Hypothesis copy_shallow : ∀ v h', copy v h' = Return (v, h').
Hypothesis not_inherited : inherited kwArgs = false.
Hypothesis target_new : target kwArgs = Loc (length h).

(** The inner loop of a shallow [_mixin] into the newest object. *)
Lemma mixin_keys_shallow (source : ref) (keys : list string) :
  allocated h source →
  ∀ t : object,
    mixin_keys copy kwArgs source keys (h ++ [t]) =
    Return (h ++ [Object (o_class t) (o_proto t)
                    (copy_properties (λ _, true) (own_properties h source)
                       keys (o_props t))]).
Proof.
  intros Hsource. induction keys as [|key keys IH]; intros t.
  - by destruct t.
  - cbn [mixin_keys copy_properties]. unfold mixin_key.
    rewrite not_inherited, target_new. cbn [orb].
    unfold hasOwnProperty. rewrite own_properties_old by done.
    destruct (lookup_property key (own_properties h source)) as [p|] eqn:Hp.
    + rewrite bool_decide_eq_true_2 by eauto.
      rewrite copy_shallow. cbn [bind].
      rewrite (Get_own _ _ _ p) by (by rewrite own_properties_old).
      rewrite Set_new. by rewrite IH.
    + rewrite bool_decide_eq_false_2 by (by intros [? ?]).
      cbn [bind]. by rewrite IH.
Qed.

(** The outer loop: the properties at the end are the own enumerable
    properties of the sources, the later source first. *)
Lemma mixin_sources_shallow (srcs : list ref) :
  Forall (allocated h) srcs →
  ∀ t : object,
    all_enumerable (o_props t) →
    ∃ props,
      mixin_sources copy kwArgs srcs (h ++ [t]) =
      Return (h ++ [Object (o_class t) (o_proto t) props])
      ∧ all_enumerable props
      ∧ ∀ key,
          lookup_property key props =
          match last_enumerable h srcs key with
          | Some v => Some (Property v true)
          | None => lookup_property key (o_props t)
          end.
Proof.
  induction 1 as [|source srcs Hsource _ IH]; intros t Ht.
  - exists (o_props t). by destruct t.
  - cbn [mixin_sources]. rewrite mixin_keys_shallow by done. cbn [bind].
    set (props1 := copy_properties _ _ _ _).
    assert (all_enumerable props1 ∧
            ∀ key, lookup_property key props1 =
                   match own_enumerable h source key with
                   | Some v => Some (Property v true)
                   | None => lookup_property key (o_props t)
                   end) as [Hall1 Hprops1].
    { split; [by apply all_enumerable_copy_properties|]. intros key.
      unfold props1.
      destruct (lookup_copy_properties (λ _, true) (own_properties h source)
                  (for_in (h ++ [t]) source) (o_props t) key Ht) as [-> _].
      rewrite <- (own_properties_old h t source) by done.
      rewrite copied_for_in. unfold own_enumerable.
      by rewrite own_properties_old. }
    destruct (IH (Object (o_class t) (o_proto t) props1) Hall1)
      as (props & Hrun & Hall & Hprops).
    exists props. split_and!; [done..|].
    intros key. rewrite Hprops. cbn [last_enumerable o_props].
    destruct (last_enumerable h srcs key); [done|]. apply Hprops1.
Qed.

End ShallowMixin.

(** The host's [Object.assign] into the newest object does the same. *)
Lemma Object_assign_keys_new (h : heap) (source : ref) (keys : list string) :
  allocated h source →
  ∀ t : object,
    Object_assign_keys (Loc (length h)) source keys (h ++ [t]) =
    h ++ [Object (o_class t) (o_proto t)
            (copy_properties p_enumerable (own_properties h source)
               keys (o_props t))].
Proof.
  intros Hsource. induction keys as [|key keys IH]; intros t.
  - by destruct t.
  - cbn [Object_assign_keys copy_properties].
    rewrite own_properties_old by done.
    destruct (lookup_property key (own_properties h source)) as [p|] eqn:Hp;
      [|by rewrite IH].
    destruct (p_enumerable p); [|by rewrite IH].
    rewrite (Get_own _ _ _ p) by (by rewrite own_properties_old).
    rewrite Set_new. by rewrite IH.
Qed.

Lemma Object_assign_new (h : heap) (srcs : list ref) :
  Forall (allocated h) srcs →
  ∀ t : object,
    all_enumerable (o_props t) →
    ∃ props,
      Object_assign (Loc (length h)) srcs (h ++ [t]) =
      (Loc (length h), h ++ [Object (o_class t) (o_proto t) props])
      ∧ all_enumerable props
      ∧ ∀ key,
          lookup_property key props =
          match last_enumerable h srcs key with
          | Some v => Some (Property v true)
          | None => lookup_property key (o_props t)
          end.
Proof.
  induction 1 as [|source srcs Hsource _ IH]; intros t Ht.
  - exists (o_props t). by destruct t.
  - cbn [Object_assign]. rewrite own_properties_old by done.
    rewrite Object_assign_keys_new by done.
    set (props1 := copy_properties _ _ _ _).
    assert (all_enumerable props1 ∧
            ∀ key, lookup_property key props1 =
                   match own_enumerable h source key with
                   | Some v => Some (Property v true)
                   | None => lookup_property key (o_props t)
                   end) as [Hall1 Hprops1].
    { split; [by apply all_enumerable_copy_properties|]. intros key.
      unfold props1.
      destruct (lookup_copy_properties p_enumerable (own_properties h source)
                  (own_properties h source).*1 (o_props t) key Ht) as [-> _].
      by rewrite copied_own_keys. }
    destruct (IH (Object (o_class t) (o_proto t) props1) Hall1)
      as (props & Hrun & Hall & Hprops).
    exists props. split_and!; [done..|].
    intros key. rewrite Hprops. cbn [last_enumerable o_props].
    destruct (last_enumerable h srcs key); [done|]. apply Hprops1.
Qed.

(** [assign] into the newest object, with either implementation. *)
Lemma assign_new (has : string → bool) (stack_limit : nat) (h : heap)
    (srcs : list ref) (t : object) :
  Forall (allocated h) srcs →
  all_enumerable (o_props t) →
  ∃ props,
    assign has stack_limit (Loc (length h)) srcs (h ++ [t]) =
    Return (Loc (length h), h ++ [Object (o_class t) (o_proto t) props])
    ∧ ∀ key,
        lookup_property key props =
        match last_enumerable h srcs key with
        | Some v => Some (Property v true)
        | None => lookup_property key (o_props t)
        end.
Proof.
  intros Hsrcs Ht. unfold assign. destruct (has "object-assign").
  - destruct (Object_assign_new h srcs Hsrcs t Ht) as (props & -> & _ & Hprops).
    by exists props.
  - set (kwArgs := {| deep := false; inherited := false; sources := srcs;
                      target := Loc (length h) |}).
    set (copy := λ (v : value) (h' : heap), @Return error _ (v, h')).
    destruct (mixin_sources_shallow h kwArgs copy (λ _ _, eq_refl) eq_refl eq_refl
                srcs Hsrcs t Ht) as (props & Hrun & _ & Hprops).
    exists props. split; [|done].
    assert (∀ stack, _mixin stack kwArgs (h ++ [t]) =
                     bind (mixin_sources copy kwArgs srcs (h ++ [t]))
                       (λ h', Return (Loc (length h), h'))) as ->
      by (by intros []).
    by rewrite Hrun.
Qed.

End MixinFacts.



(** ** The registry of [Symbol.for] *)

Section RegistryFacts.

Import Shim.

Variable Number_toString : float → string.
Variable ToString : value → string.

Lemma lookup_define_property key key' p (props : properties) :
  lookup_property key (define_property key' p props) =
  if decide (key' = key) then Some p else lookup_property key props.
Proof.
  induction props as [|[k q] props IH]; simpl.
  - by case_decide.
  - destruct (decide (k = key')) as [->|Hk]; simpl.
    + by case_decide.
    + destruct (decide (k = key)) as [->|Hk'].
      * by rewrite decide_False by done.
      * exact IH.
Qed.

Lemma enumerable_keys_lookup key p (props : properties) :
  lookup_property key props = Some p → p_enumerable p = true →
  key ∈ enumerable_keys props.
Proof.
  intros Hp Henum. unfold enumerable_keys.
  apply list_elem_of_fmap. exists (key, p). split; [done|].
  apply list_elem_of_filter. split; [done|].
  induction props as [|[k q] props IH]; [done|]. simpl in Hp.
  destruct (decide (k = key)) as [->|Hk].
  - injection Hp as ->. apply list_elem_of_here.
  - apply list_elem_of_further. by apply IH.
Qed.

Lemma enumerable_keys_is_Some key (props : properties) :
  key ∈ enumerable_keys props → is_Some (lookup_property key props).
Proof.
  unfold enumerable_keys. intros ([k p] & -> & Hin%list_elem_of_filter)%list_elem_of_fmap.
  destruct Hin as [_ Hin]. apply lookup_property_is_Some.
  apply list_elem_of_fmap. by exists (k, p).
Qed.

(** The loop of [keyFor] returns the one key that holds the symbol. *)
Lemma keyFor_loop_finds (st : state) (sym : value) (key : string) (keys : list string) :
  key ∈ keys →
  strict_equals (globalSymbols_get st key) sym = true →
  (∀ key', key' ∈ keys →
           strict_equals (globalSymbols_get st key') sym = true → key' = key) →
  keyFor_loop st keys sym = VString key.
Proof.
  induction keys as [|k keys IH]; intros Hin Hkey Honly; [by apply elem_of_nil in Hin|].
  simpl. destruct (strict_equals (globalSymbols_get st k) sym) eqn:Hk.
  - f_equal. apply Honly; [apply list_elem_of_here|done].
  - apply elem_of_cons in Hin as [->|Hin]; [congruence|].
    apply IH; [done..|]. intros key' Hin'. apply Honly. by apply list_elem_of_further.
Qed.

Lemma globalSymbols_get_own (st : state) key p :
  lookup_property key (globalSymbols st) = Some p →
  globalSymbols_get st key = p_value p.
Proof. intros Hp. unfold globalSymbols_get. by rewrite Hp. Qed.

(** A registered key: [Symbol.for] returns its symbol and leaves the state
    alone, and [Symbol.keyFor] finds the key again. *)
Lemma Symbol_for_registered (st : state) (key : string) (p : property) :
  registry_ok st →
  lookup_property key (globalSymbols st) = Some p →
  objPrototype st !! key = None →
  Symbol_for Number_toString key st = Some (Return (p_value p), st)
  ∧ isSymbol st (p_value p) = true
  ∧ Symbol_keyFor ToString (p_value p) st = Some (Return (VString key), st).
Proof.
  intros (Hsyms & Hinj & Hhidden) Hp Hproto.
  destruct (Hsyms key p Hp) as (n & Hn & Hlt).
  assert (isSymbol st (p_value p) = true) as Hsym.
  { rewrite Hn. simpl. apply bool_decide_eq_true. by apply lookup_lt_is_Some. }
  split_and!; [|done|].
  - unfold Symbol_for. rewrite (globalSymbols_get_own st key p Hp).
    by rewrite Hn.
  - unfold Symbol_keyFor, mbind, M_bind, bind_M, validateSymbol, keyFor_scan.
    rewrite Hsym. do 2 f_equal. f_equal.
    apply keyFor_loop_finds.
    + apply (enumerable_keys_lookup key p); [done|].
      destruct (p_enumerable p) eqn:Henum; [done|].
      rewrite (Hhidden key p Hp Henum) in Hproto. done.
    + rewrite (globalSymbols_get_own st key p Hp), Hn. simpl.
      by apply bool_decide_eq_true.
    + intros key' [p' Hp']%enumerable_keys_is_Some.
      rewrite (globalSymbols_get_own st key' p' Hp').
      destruct (Hsyms key' p' Hp') as (n' & Hn' & _). rewrite Hn', Hn. simpl.
      intros Heq%bool_decide_eq_true. apply (Hinj key' key p' p); [done..|].
      congruence.
Qed.

Lemma string_length_app (s1 s2 : string) :
  String.length (s1 +:+ s2) = String.length s1 + String.length s2.
Proof. induction s1 as [|a s1 IH]; simpl; [done|]. by rewrite IH. Qed.

(** The name of a symbol made for [key] is longer than [key]. *)
Lemma name_not_key (key : string) (p : nat) : "@@" +:+ postfixed key p ≠ key.
Proof.
  intros Heq. apply (f_equal String.length) in Heq.
  unfold postfixed in Heq. rewrite !string_length_app in Heq. simpl in Heq. lia.
Qed.

(** What [Symbol.for] does with a key that is not registered and reads as
    a falsy value. *)
Lemma Symbol_for_registers (st : state) (key : string) :
  setters_recorded st →
  lookup_property key (globalSymbols st) = None →
  ToBoolean (globalSymbols_get st key) = false →
  ∃ p reg proto,
    Symbol_for Number_toString key st =
      Some (Return (VObject (Loc (length (symbols st)))),
            State reg proto
              (globalSymbols st ++
                 [(key, Property (VObject (Loc (length (symbols st))))
                          (match objPrototype st !! key with
                           | Some SetterOnly => false
                           | _ => true
                           end))])
              (symbols st ++ [ {| __description__ := key;
                                  __name__ := "@@" +:+ postfixed key p |} ]))
    ∧ proto = <["@@" +:+ postfixed key p := SetterOnly]> (objPrototype st).
Proof.
  intros Hsetters Hown Hfalsy.
  destruct (getSymbolName_returns st key Hsetters) as (p & _ & _ & Hname).
  exists p. do 2 eexists. split; [|reflexivity].
  assert (∀ (props : properties) v e,
            lookup_property key props = None →
            assign_property key v props = props ++ [(key, Property v true)]
            ∧ define_property key (Property v e) props = props ++ [(key, Property v e)])
    as Happend.
  { clear. intros props v e. induction props as [|[k q] props IH]; simpl; [done|].
    destruct (decide (k = key)); [done|]. intros Hnone.
    destruct (IH Hnone) as [-> ->]. done. }
  unfold Symbol_for. rewrite Hfalsy.
  unfold mbind, M_bind, bind_M, Symbol. simpl.
  unfold_M. rewrite Hname.
  unfold new_symbol, globalSymbols_set, mret, M_ret, ret. simpl.
  rewrite Hown, lookup_insert_ne by apply name_not_key.
  destruct (Happend (globalSymbols st) (VObject (Loc (length (symbols st)))) false Hown)
    as [Hassign Hdefine].
  destruct (objPrototype st !! key) as [[v|]|] eqn:Hproto;
    by rewrite ?Hassign, ?Hdefine.
Qed.

Lemma lookup_property_app_new key key' p (props : properties) :
  lookup_property key props = None →
  lookup_property key' (props ++ [(key, p)]) =
  if decide (key = key') then Some p else lookup_property key' props.
Proof.
  induction props as [|[k q] props IH]; simpl; [done|].
  destruct (decide (k = key)) as [->|Hk]; [done|]. intros Hnone.
  destruct (decide (k = key')) as [->|Hk'].
  - by rewrite decide_False by done.
  - by apply IH.
Qed.

Lemma registry_ok_registers (st : state) key reg p e description name :
  registry_ok st →
  lookup_property key (globalSymbols st) = None →
  (e = false → objPrototype st !! key = Some SetterOnly) →
  registry_ok
    (State reg (<[p := SetterOnly]> (objPrototype st))
       (globalSymbols st ++ [(key, Property (VObject (Loc (length (symbols st)))) e)])
       (symbols st ++ [ {| __description__ := description; __name__ := name |} ])).
Proof.
  intros (Hsyms & Hinj & Hhidden) Hnone He. split_and!; simpl.
  - intros key' q. rewrite lookup_property_app_new by done.
    rewrite length_app. simpl. case_decide.
    + intros [= <-]. exists (length (symbols st)). split; [done|lia].
    + intros (n & Hn & Hlt)%Hsyms. exists n. split; [done|lia].
  - intros key1 key2 p1 p2. rewrite !lookup_property_app_new by done.
    destruct (decide (key = key1)) as [<-|H1], (decide (key = key2)) as [<-|H2];
      try done.
    + intros [= <-] (n & Hn & Hlt)%Hsyms. simpl. rewrite Hn. intros [= Heq]. lia.
    + intros (n & Hn & Hlt)%Hsyms [= <-]. simpl. rewrite Hn. intros [= Heq]. lia.
    + apply Hinj.
  - intros key' q. rewrite lookup_property_app_new by done.
    rewrite lookup_insert.
    destruct (decide (key = key')) as [<-|Hkey].
    + intros [= <-]. simpl. intros Hset%He. rewrite Hset. by case_decide.
    + intros Hq Henum. rewrite (Hhidden key' q Hq Henum). by case_decide.
Qed.

Lemma registry_ok_Symbol (st : state) reg p description name :
  registry_ok st →
  registry_ok
    (State reg (<[p := SetterOnly]> (objPrototype st)) (globalSymbols st)
       (symbols st ++ [ {| __description__ := description; __name__ := name |} ])).
Proof.
  intros (Hsyms & Hinj & Hhidden). split_and!; simpl.
  - intros key' q (n & Hn & Hlt)%Hsyms. exists n. split; [done|].
    rewrite length_app. lia.
  - apply Hinj.
  - intros key' q Hq Henum. rewrite lookup_insert, (Hhidden key' q Hq Henum).
    by case_decide.
Qed.

Lemma falsy_not_registered (st : state) key :
  registry_ok st →
  ToBoolean (globalSymbols_get st key) = false →
  lookup_property key (globalSymbols st) = None.
Proof.
  intros (Hsyms & _) Hfalsy.
  destruct (lookup_property key (globalSymbols st)) as [p|] eqn:Hp; [|done].
  rewrite (globalSymbols_get_own st key p Hp) in Hfalsy.
  destruct (Hsyms key p Hp) as (n & Hn & _). by rewrite Hn in Hfalsy.
Qed.

Lemma run_registry_ok (op : operation) (st st' : state) (c : completion error value) :
  recorded st → registry_ok st →
  run Number_toString ToString op st = Some (c, st') →
  registry_ok st'.
Proof.
  intros Hrec Hreg. destruct op as [[] d|key|sym]; simpl.
  - destruct (Symbol_call_returns Number_toString st d (proj1 Hrec)) as (key & _ & ->).
    intros [= _ <-]. by apply registry_ok_Symbol.
  - by intros [= _ <-].
  - destruct (ToBoolean (globalSymbols_get st key)) eqn:Hget.
    + unfold Symbol_for. rewrite Hget. by intros [= _ <-].
    + pose proof (falsy_not_registered st key Hreg Hget) as Hnone.
      destruct (Symbol_for_registers st key (proj1 Hrec) Hnone Hget)
        as (p & reg & proto & -> & ->).
      intros [= _ <-]. apply registry_ok_registers; [done..|].
      by destruct (objPrototype st !! key) as [[v|]|].
  - unfold Symbol_keyFor, mbind, M_bind, bind_M, validateSymbol, keyFor_scan.
    destruct (isSymbol st sym); by intros [= _ <-].
Qed.

Lemma reachable_registry_ok (st : state) :
  reachable Number_toString ToString st → registry_ok st.
Proof.
  induction 1 as [|op st st' c Hreach IH Hrun].
  - split_and!; simpl; done.
  - eapply run_registry_ok; [|done..]. by eapply reachable_recorded.
Qed.

(** The round trip of the registry, for a key that names no property of
    [Object.prototype]: [Symbol.for] returns a symbol, returns the same
    symbol when called again, and [Symbol.keyFor] gives the key back. *)
Lemma Symbol_for_roundtrip (st : state) (key : string) :
  reachable Number_toString ToString st →
  objPrototype st !! key = None →
  ∃ sym st1,
    Symbol_for Number_toString key st = Some (Return sym, st1)
    ∧ isSymbol st1 sym = true
    ∧ Symbol_for Number_toString key st1 = Some (Return sym, st1)
    ∧ Symbol_keyFor ToString sym st1 = Some (Return (VString key), st1).
Proof.
  intros Hreach Hproto.
  pose proof (reachable_recorded _ _ _ Hreach) as Hrec.
  pose proof (reachable_registry_ok _ Hreach) as Hreg.
  destruct (lookup_property key (globalSymbols st)) as [p|] eqn:Hp.
  - destruct (Symbol_for_registered st key p Hreg Hp Hproto) as (Hfor & Hsym & Hkey).
    by exists (p_value p), st.
  - assert (ToBoolean (globalSymbols_get st key) = false) as Hfalsy.
    { unfold globalSymbols_get. by rewrite Hp, Hproto. }
    destruct (Symbol_for_registers st key (proj1 Hrec) Hp Hfalsy)
      as (n & reg & proto & Hfor & ->).
    rewrite Hproto in Hfor.
    eexists _, _. split; [exact Hfor|].
    set (sym := Property (VObject (Loc (length (symbols st)))) true).
    match goal with |- context [Symbol_for _ _ ?s] => set (st1 := s) end.
    assert (registry_ok st1) as Hreg1.
    { unfold st1. by apply registry_ok_registers. }
    destruct (Symbol_for_registered st1 key sym Hreg1) as (Hfor1 & Hsym1 & Hkey1).
    + unfold st1. simpl. rewrite lookup_property_app_new by done. by case_decide.
    + unfold st1. simpl. rewrite lookup_insert_ne by apply name_not_key. done.
    + done.
Qed.

End RegistryFacts.

(** ** More on the Symbol shim *)

Section SymbolFacts.

Import Shim.

Variable Number_toString : float → string.
Variable ToString : value → string.

Local Abbreviation reachable := (Shim.reachable Number_toString ToString).
Local Abbreviation reaches := (Shim.reaches Number_toString ToString).
Local Abbreviation run := (Shim.run Number_toString ToString).

(** Loading the module is a sequence of calls of [Symbol]. *)
Lemma load_symbols_reachable (names : list string) :
  ∀ st, reachable st →
        ∃ st', load_symbols Number_toString names st = Some (Return (), st')
               ∧ reachable st'.
Proof.
  induction names as [|name names IH]; intros st Hst; [by exists st|].
  pose proof (reachable_recorded _ _ _ Hst) as [Hsetters _].
  destruct (Symbol_call_returns Number_toString st (Some (inl name)) Hsetters)
    as (key & _ & Hcall).
  set (st1 := State _ _ _ _) in Hcall.
  destruct (IH st1) as (st' & Hload & Hreach).
  { by apply (reachable_run _ _ (OpSymbol Call (Some (inl name))) st st1
                (Return (VObject (Loc (length (symbols st)))))). }
  exists st'. split; [|done].
  cbn [load_symbols]. unfold_M. by rewrite Hcall.
Qed.

Lemma loaded_reachable : reachable (loaded Number_toString).
Proof.
  destruct (load_symbols_reachable well_known initial) as (st' & Hload & Hreach).
  { apply reachable_initial. }
  unfold loaded. by rewrite Hload.
Qed.

Lemma reaches_reachable (st st' : state) :
  reachable st → reaches st st' → reachable st'.
Proof.
  intros Hst. induction 1 as [|op st st' st'' c _ IH Hrun]; [done|].
  eapply reachable_run; [by apply IH|done].
Qed.

(** *** The names of the symbols *)

Lemma run_names_distinct (op : operation) (st st' : state) (c : completion error value) :
  recorded st →
  NoDup (__name__ <$> symbols st) →
  run op st = Some (c, st') →
  NoDup (__name__ <$> symbols st').
Proof.
  intros [Hsetters Hsymbols] Hnames.
  assert (∀ d reg proto props key,
            is_created (created st) key = false →
            NoDup (__name__ <$>
                     symbols (State reg proto props
                                (symbols st ++ [ {| __description__ := d;
                                                    __name__ := "@@" +:+ key |} ]))))
    as Hnew.
  { intros d reg proto props key Hfree. cbn [symbols].
    rewrite fmap_app. apply NoDup_app. split_and!; [done| |apply NoDup_singleton].
    intros name (s & -> & Hs)%list_elem_of_fmap Hin.
    apply list_elem_of_singleton in Hin. simpl in Hin.
    destruct (Hsymbols s Hs) as (key' & Hname & Hkey'). rewrite Hname in Hin.
    apply (inj (String.app "@@")) in Hin. congruence. }
  destruct op as [[] d|key|sym]; simpl.
  - destruct (Symbol_call_returns Number_toString st d Hsetters) as (key & Hfree & ->).
    intros [= _ <-]. by apply Hnew.
  - by intros [= _ <-].
  - unfold Symbol_for. destruct (ToBoolean _); [by intros [= _ <-]|].
    unfold_M.
    destruct (Symbol_call_returns Number_toString st (Some (inl key)) Hsetters)
      as (k & Hfree & ->).
    simpl. intros [= _ <-]. by apply (Hnew key).
  - unfold Symbol_keyFor, mbind, M_bind, bind_M, validateSymbol, keyFor_scan.
    destruct (isSymbol st sym); by intros [= _ <-].
Qed.

Lemma reachable_names_distinct (st : state) :
  reachable st → NoDup (__name__ <$> symbols st).
Proof.
  induction 1 as [|op st st' c Hreach IH Hrun]; [constructor|].
  eapply run_names_distinct; [|done..]. by eapply reachable_recorded.
Qed.

(** *** Symbols that [Symbol.for] did not make *)

Lemma keyFor_loop_absent (st : state) (sym : value) (keys : list string) :
  (∀ key, key ∈ keys → strict_equals (globalSymbols_get st key) sym = false) →
  keyFor_loop st keys sym = VUndefined.
Proof.
  induction keys as [|k keys IH]; intros Hnone; [done|]. simpl.
  rewrite Hnone by apply list_elem_of_here.
  apply IH. intros key Hin. apply Hnone. by apply list_elem_of_further.
Qed.

(** A symbol newer than the registry is under none of its keys. *)
Lemma registry_misses_new (st : state) (n : nat) (key : string) :
  registry_ok st → length (symbols st) ≤ n →
  key ∈ enumerable_keys (globalSymbols st) →
  strict_equals (globalSymbols_get st key) (VObject (Loc n)) = false.
Proof.
  intros (Hsyms & _) Hn [p Hp]%enumerable_keys_is_Some.
  rewrite (globalSymbols_get_own st key p Hp).
  destruct (Hsyms key p Hp) as (m & -> & Hm). simpl.
  apply bool_decide_eq_false. intros [= ->]. lia.
Qed.


(** *** What a call changes *)

(** [Symbol.for] on a key that is not registered and reads as a falsy
    value, with the state it leaves in full. *)
Lemma Symbol_for_new (st : state) (key : string) :
  setters_recorded st →
  lookup_property key (globalSymbols st) = None →
  ToBoolean (globalSymbols_get st key) = false →
  ∃ p,
    is_created (created st) (postfixed key p) = false
    ∧ Symbol_for Number_toString key st =
        Some (Return (VObject (Loc (length (symbols st)))),
              State (<[postfixed key p := true]> (created st))
                (<["@@" +:+ postfixed key p := SetterOnly]> (objPrototype st))
                (globalSymbols st ++
                   [(key, Property (VObject (Loc (length (symbols st))))
                            (match objPrototype st !! key with
                             | Some SetterOnly => false
                             | _ => true
                             end))])
                (symbols st ++ [ {| __description__ := key;
                                    __name__ := "@@" +:+ postfixed key p |} ])).
Proof.
  intros Hsetters Hown Hfalsy.
  destruct (getSymbolName_returns st key Hsetters) as (p & Hfree & _ & Hname).
  exists p. split; [done|].
  assert (∀ (props : properties) v e,
            lookup_property key props = None →
            assign_property key v props = props ++ [(key, Property v true)]
            ∧ define_property key (Property v e) props = props ++ [(key, Property v e)])
    as Happend.
  { clear. intros props v e. induction props as [|[k q] props IH]; simpl; [done|].
    destruct (decide (k = key)); [done|]. intros Hnone.
    destruct (IH Hnone) as [-> ->]. done. }
  unfold Symbol_for. rewrite Hfalsy.
  unfold mbind, M_bind, bind_M, Symbol. simpl.
  unfold_M. rewrite Hname.
  unfold new_symbol, globalSymbols_set, mret, M_ret, ret. simpl.
  rewrite Hown, lookup_insert_ne by apply name_not_key.
  destruct (Happend (globalSymbols st) (VObject (Loc (length (symbols st)))) false Hown)
    as [Hassign Hdefine].
  destruct (objPrototype st !! key) as [[v|]|] eqn:Hproto;
    by rewrite ?Hassign, ?Hdefine.
Qed.

(** A call leaves the state as it is, or makes one symbol, under a name
    that was free, and registers it under at most one key that had no
    property. *)
Lemma run_effect (op : operation) (st st' : state) (c : completion error value) :
  recorded st → registry_ok st →
  run op st = Some (c, st') →
  st' = st
  ∨ ∃ k description added,
      is_created (created st) k = false
      ∧ st' = State (<[k := true]> (created st))
                    (<["@@" +:+ k := SetterOnly]> (objPrototype st))
                    (globalSymbols st ++ added)
                    (symbols st ++ [ {| __description__ := description;
                                        __name__ := "@@" +:+ k |} ])
      ∧ (added = []
         ∨ ∃ key e,
             added = [(key, Property (VObject (Loc (length (symbols st)))) e)]
             ∧ lookup_property key (globalSymbols st) = None).
Proof.
  intros Hrec Hreg. destruct op as [[] d|key|sym]; simpl.
  - destruct (Symbol_call_returns Number_toString st d (proj1 Hrec)) as (k & Hfree & ->).
    intros [= _ <-]. right. exists k, (description_string Number_toString d), [].
    rewrite app_nil_r. split_and!; [done|done|by left].
  - intros [= _ <-]. by left.
  - destruct (ToBoolean (globalSymbols_get st key)) eqn:Hget.
    + unfold Symbol_for. rewrite Hget. intros [= _ <-]. by left.
    + pose proof (falsy_not_registered st key Hreg Hget) as Hnone.
      destruct (Symbol_for_new st key (proj1 Hrec) Hnone Hget) as (p & Hfree & ->).
      intros [= _ <-]. right.
      eexists (postfixed key p), key, _. split_and!; [done|reflexivity|].
      right. eauto.
  - unfold Symbol_keyFor, mbind, M_bind, bind_M, validateSymbol, keyFor_scan.
    destruct (isSymbol st sym); intros [= _ <-]; by left.
Qed.

(** The built-in properties of [Object.prototype] hold objects of the
    host. *)
Lemma reachable_builtins (st : state) :
  reachable st →
  ∀ key v, objPrototype st !! key = Some (BuiltIn v) →
           ∃ name, v = VObject (Host name).
Proof.
  induction 1 as [|op st st' c Hreach IH Hrun]; intros key v.
  - unfold initial. simpl. rewrite !lookup_insert, lookup_empty.
    repeat case_decide; try done; intros [= <-]; by eexists.
  - pose proof (reachable_recorded _ _ _ Hreach) as Hrec.
    pose proof (reachable_registry_ok _ _ _ Hreach) as Hreg.
    destruct (run_effect op st st' c Hrec Hreg Hrun)
      as [->|(k & d & added & _ & -> & _)]; [apply IH|].
    simpl. rewrite lookup_insert. case_decide; [done|]. apply IH.
Qed.

(** A key keeps the symbol it is registered with. *)
Lemma run_keeps_registered (op : operation) (st st' : state)
    (c : completion error value) (key : string) (p : property) :
  recorded st → registry_ok st →
  run op st = Some (c, st') →
  lookup_property key (globalSymbols st) = Some p →
  lookup_property key (globalSymbols st') = Some p.
Proof.
  intros Hrec Hreg Hrun Hp.
  destruct (run_effect op st st' c Hrec Hreg Hrun)
    as [->|(k & d & added & _ & -> & [->|(key' & e & -> & Hnone)])]; [done| |].
  - simpl. by rewrite app_nil_r.
  - simpl. rewrite lookup_property_app_new by done.
    case_decide; [congruence|done].
Qed.

Lemma reaches_keeps_registered (st st' : state) (key : string) (p : property) :
  reachable st → reaches st st' →
  lookup_property key (globalSymbols st) = Some p →
  lookup_property key (globalSymbols st') = Some p.
Proof.
  intros Hst Hreaches Hp.
  induction Hreaches as [|op st st' st'' c Hreaches IH Hrun]; [done|].
  pose proof (reaches_reachable st st' Hst Hreaches) as Hst'.
  eapply run_keeps_registered; [| |done|by apply IH].
  - by eapply reachable_recorded.
  - by eapply reachable_registry_ok.
Qed.

(** What [Symbol.for] returns: the symbol registered under the key when it
    returns, or an object of the host that [globalSymbols] inherits, and
    then it registers nothing. *)
Lemma Symbol_for_returns (st : state) (key : string) :
  reachable st →
  ∃ v st1,
    Symbol_for Number_toString key st = Some (Return v, st1)
    ∧ ((isSymbol st1 v = true
        ∧ ∃ p, lookup_property key (globalSymbols st1) = Some p ∧ p_value p = v)
       ∨ (∃ name, v = VObject (Host name)) ∧ st1 = st).
Proof.
  intros Hst.
  pose proof (reachable_recorded _ _ _ Hst) as Hrec.
  pose proof (reachable_registry_ok _ _ _ Hst) as Hreg.
  destruct (ToBoolean (globalSymbols_get st key)) eqn:Hget.
  - exists (globalSymbols_get st key), st. split.
    { unfold Symbol_for. by rewrite Hget. }
    destruct (lookup_property key (globalSymbols st)) as [p|] eqn:Hp.
    + left. rewrite (globalSymbols_get_own st key p Hp). split; [|eauto].
      destruct Hreg as (Hsyms & _). destruct (Hsyms key p Hp) as (n & -> & Hn).
      simpl. apply bool_decide_eq_true. by apply lookup_lt_is_Some.
    + right. split; [|done]. unfold globalSymbols_get in *. rewrite Hp in *.
      destruct (objPrototype st !! key) as [[v|]|] eqn:Hproto; try done.
      by eapply reachable_builtins.
  - pose proof (falsy_not_registered st key Hreg Hget) as Hnone.
    destruct (Symbol_for_new st key (proj1 Hrec) Hnone Hget) as (p & Hfree & Hfor).
    eexists _, _. split; [exact Hfor|]. left. split.
    + simpl. apply bool_decide_eq_true. cbn [symbols].
      rewrite lookup_app_r, Nat.sub_diag by done. by eexists.
    + simpl. rewrite lookup_property_app_new by done.
      rewrite decide_True by done. by eexists.
Qed.


(** A symbol made later than the registry is under none of its keys. *)
Lemma keyFor_new_symbol (st : state) reg proto syms (hidden : properties) :
  registry_ok st →
  enumerable_keys hidden = [] →
  (∀ key, key ∈ (globalSymbols st).*1 → key ∉ hidden.*1) →
  isSymbol (State reg proto (globalSymbols st ++ hidden) (symbols st ++ syms))
    (VObject (Loc (length (symbols st)))) = true →
  Symbol_keyFor ToString (VObject (Loc (length (symbols st))))
    (State reg proto (globalSymbols st ++ hidden) (symbols st ++ syms)) =
  Some (Return VUndefined,
        State reg proto (globalSymbols st ++ hidden) (symbols st ++ syms)).
Proof.
  intros Hreg Hhidden Hfresh Hsym.
  unfold Symbol_keyFor, mbind, M_bind, bind_M, validateSymbol, keyFor_scan.
  rewrite Hsym. do 3 f_equal.
  apply keyFor_loop_absent. intros key. cbn [globalSymbols].
  unfold enumerable_keys. rewrite filter_app, fmap_app.
  fold (enumerable_keys (globalSymbols st)). fold (enumerable_keys hidden).
  rewrite Hhidden, app_nil_r. intros Hkey.
  pose proof (registry_misses_new st (length (symbols st)) key Hreg (le_n _) Hkey)
    as Hmiss.
  apply enumerable_keys_is_Some in Hkey as [p Hp].
  rewrite (globalSymbols_get_own st key p Hp) in Hmiss.
  unfold globalSymbols_get. cbn [globalSymbols].
  assert (lookup_property key (globalSymbols st ++ hidden) = Some p) as ->; [|done].
  clear -Hp. induction (globalSymbols st) as [|[k q] props IH]; [done|].
  simpl in *. by destruct (decide (k = key)); [|apply IH].
Qed.

Lemma Symbol_prototype_toString_symbol (st : state) (n : nat) (s : symbol_object) :
  symbols st !! n = Some s →
  Symbol_prototype_toString ToString (VObject (Loc n)) st =
  Some (Return ("Symbol (" +:+ __description__ s +:+ ")"), st).
Proof.
  intros Hs.
  unfold Symbol_prototype_toString, mbind, M_bind, bind_M, validateSymbol, isSymbol.
  cbn [ToBoolean andb]. rewrite bool_decide_eq_true_2 by eauto.
  unfold read_description. by rewrite Hs.
Qed.

Lemma after_calls_reaches (ops : list operation) (st : state) :
  Shim.reaches Sample.number_string Sample.value_string st (Sample.after_calls ops st).
Proof.
  induction ops as [|op ops IH] using rev_ind; [apply reaches_refl|].
  unfold Sample.after_calls in *. rewrite fold_left_app. simpl.
  destruct (Shim.run _ _ op _) as [[c st']|] eqn:Hrun; [|done].
  by eapply reaches_run.
Qed.

Lemma reaches_trans (st1 st2 st3 : state) :
  reaches st1 st2 → reaches st2 st3 → reaches st1 st3.
Proof.
  intros H12. induction 1 as [|op st st' st'' c _ IH Hrun]; [done|].
  eapply reaches_run; [by apply IH|done].
Qed.

End SymbolFacts.

(** X1.  In every state the module can reach, two different symbol objects
    stand for two different property keys: the strings their [toString]
    (line 162) gives differ. *)
Theorem symbol_keys_distinct
  (Number_toString : float → string) (ToString : value → string)
  (st : Shim.state) (a b : value) :
  Shim.reachable Number_toString ToString st →
  Shim.isSymbol st a = true → Shim.isSymbol st b = true → a ≠ b →
  ∃ ka kb,
    Shim.InternalSymbol_toString st a = Return (VString ka)
    ∧ Shim.InternalSymbol_toString st b = Return (VString kb)
    ∧ ka ≠ kb.
Proof.
  intros Hnames%reachable_names_distinct Ha Hb Hab.
  unfold Shim.isSymbol in Ha, Hb.
  destruct a as [| |ba|xa|sa|[na|i]]; try done;
    [by rewrite andb_false_r in Ha..|].
  destruct b as [| |bb|xb|sb|[nb|j]]; try done;
    [by rewrite andb_false_r in Hb..|].
  simpl in Ha, Hb.
  apply bool_decide_eq_true in Ha as [sa Hsa], Hb as [sb Hsb].
  exists (Shim.__name__ sa), (Shim.__name__ sb). simpl. rewrite Hsa, Hsb.
  split_and!; [done..|]. intros Heq.
  apply Hab. do 2 f_equal.
  apply (NoDup_lookup _ i j (Shim.__name__ sa) Hnames);
    rewrite list_lookup_fmap; [by rewrite Hsa|by rewrite Hsb, Heq].
Qed.

Lemma symbol_keys_distinct_witness :
  ∃ ka kb,
    Shim.InternalSymbol_toString (Shim.loaded Sample.number_string) (VObject (Loc 2)) =
      Return (VString ka)
    ∧ Shim.InternalSymbol_toString (Shim.loaded Sample.number_string) (VObject (Loc 9)) =
      Return (VString kb)
    ∧ ka ≠ kb.
Proof.
  apply (symbol_keys_distinct Sample.number_string Sample.value_string).
  - apply loaded_reachable.
  - by vm_compute.
  - by vm_compute.
  - discriminate.
Defined.

(** X2.  A plain call [Symbol(d)] in a state the module can reach returns a
    symbol whose property key is ['@@'], the description and a numeric
    postfix (nothing, or 1, 2, ...), whose [Symbol.prototype.toString]
    (line 167) is ['Symbol (' + description + ')'], and for which
    [Symbol.keyFor] returns [undefined]: it is under no key of the
    registry. *)
Theorem new_symbol_strings
  (Number_toString : float → string) (ToString : value → string)
  (st : Shim.state) (d : option (string + float)) :
  Shim.reachable Number_toString ToString st →
  ∃ sym st1 postfix,
    Shim.Symbol Number_toString Shim.Call d st = Some (Return sym, st1)
    ∧ Shim.InternalSymbol_toString st1 sym =
        Return (VString ("@@" +:+ Shim.postfixed
                                    (Shim.description_string Number_toString d) postfix))
    ∧ Shim.Symbol_prototype_toString ToString sym st1 =
        Some (Return ("Symbol (" +:+ Shim.description_string Number_toString d +:+ ")"),
              st1)
    ∧ Shim.Symbol_keyFor ToString sym st1 = Some (Return VUndefined, st1).
Proof.
  intros Hst.
  pose proof (reachable_recorded _ _ _ Hst) as [Hsetters _].
  pose proof (reachable_registry_ok _ _ _ Hst) as Hreg.
  destruct (getSymbolName_returns st (Shim.description_string Number_toString d) Hsetters)
    as (p & _ & _ & Hname).
  set (description := Shim.description_string Number_toString d) in *.
  set (s := {| Shim.__description__ := description;
               Shim.__name__ := "@@" +:+ Shim.postfixed description p |}).
  set (st1 := Shim.State (<[Shim.postfixed description p:=true]> (Shim.created st))
                (<["@@" +:+ Shim.postfixed description p:=Shim.SetterOnly]>
                   (Shim.objPrototype st))
                (Shim.globalSymbols st ++ []) (Shim.symbols st ++ [s])).
  assert (Shim.symbols st1 !! length (Shim.symbols st) = Some s) as Hs.
  { unfold st1. cbn [Shim.symbols]. by rewrite lookup_app_r, Nat.sub_diag. }
  exists (VObject (Loc (length (Shim.symbols st)))), st1, p. split_and!.
  - unfold Shim.Symbol. simpl. unfold_M. fold description. rewrite Hname.
    unfold st1. by rewrite app_nil_r.
  - unfold Shim.InternalSymbol_toString. by rewrite Hs.
  - by rewrite (Symbol_prototype_toString_symbol ToString st1 _ s Hs).
  - apply (keyFor_new_symbol ToString st); [done|done| |].
    + intros key _. apply not_elem_of_nil.
    + unfold Shim.isSymbol. cbn [ToBoolean andb Shim.symbols].
      apply bool_decide_eq_true.
      rewrite lookup_app_r, Nat.sub_diag by done. by eexists.
Qed.

Lemma new_symbol_strings_witness :
  ∃ sym st1 postfix,
    Shim.Symbol Sample.number_string Shim.Call (Some (inl "iterator"))
      (Shim.loaded Sample.number_string) = Some (Return sym, st1)
    ∧ Shim.InternalSymbol_toString st1 sym =
        Return (VString ("@@" +:+ Shim.postfixed "iterator" postfix))
    ∧ Shim.Symbol_prototype_toString Sample.value_string sym st1 =
        Some (Return "Symbol (iterator)", st1)
    ∧ Shim.Symbol_keyFor Sample.value_string sym st1 = Some (Return VUndefined, st1).
Proof.
  apply (new_symbol_strings Sample.number_string Sample.value_string (Shim.loaded Sample.number_string)
           (Some (inl "iterator"))).
  apply loaded_reachable.
Defined.

(** X3.  The registry keeps its symbols: once [Symbol.for(key)] has
    returned a symbol, it returns the same symbol after any further calls of
    the module. *)
Theorem Symbol_for_stable
  (Number_toString : float → string) (ToString : value → string)
  (st st1 st2 : Shim.state) (key : string) (sym : value) :
  Shim.reachable Number_toString ToString st →
  Shim.Symbol_for Number_toString key st = Some (Return sym, st1) →
  Shim.isSymbol st1 sym = true →
  Shim.reaches Number_toString ToString st1 st2 →
  Shim.Symbol_for Number_toString key st2 = Some (Return sym, st2).
Proof.
  intros Hst Hfor Hsym Hreaches.
  destruct (Symbol_for_returns Number_toString ToString st key Hst)
    as (v & st1' & Hfor' & Hcases).
  rewrite Hfor in Hfor'. injection Hfor' as <- <-.
  destruct Hcases as [[_ (p & Hp & <-)] | [(name & ->) _]];
    [|cbn in Hsym; discriminate].
  assert (Shim.reachable Number_toString ToString st1) as Hst1.
  { by apply (Shim.reachable_run _ _ (Shim.OpFor key) st st1 (Return (p_value p))). }
  pose proof (reaches_keeps_registered _ _ st1 st2 key p Hst1 Hreaches Hp) as Hp2.
  pose proof (reaches_reachable _ _ st1 st2 Hst1 Hreaches) as Hst2.
  destruct (reachable_registry_ok _ _ _ Hst2) as (Hsyms & _).
  destruct (Hsyms key p Hp2) as (n & Hn & _).
  unfold Shim.Symbol_for. rewrite (globalSymbols_get_own st2 key p Hp2).
  by rewrite Hn.
Qed.

Lemma Symbol_for_stable_witness :
  Shim.Symbol_for Sample.number_string "app"
    (Sample.after_calls
       [Shim.OpSymbol Shim.Call (Some (inl "app")); Shim.OpFor "other";
        Shim.OpKeyFor VNull]
       (Sample.after_calls [Shim.OpFor "app"] Shim.initial)) =
  Some (Return (VObject (Loc 0)),
        Sample.after_calls
          [Shim.OpSymbol Shim.Call (Some (inl "app")); Shim.OpFor "other";
           Shim.OpKeyFor VNull]
          (Sample.after_calls [Shim.OpFor "app"] Shim.initial)).
Proof.
  apply (Symbol_for_stable Sample.number_string Sample.value_string Shim.initial
           (Sample.after_calls [Shim.OpFor "app"] Shim.initial)).
  - apply Shim.reachable_initial.
  - by vm_compute.
  - by vm_compute.
  - apply after_calls_reaches.
Defined.

(** X4.  [Symbol.for] gives different keys different symbols. *)
Theorem Symbol_for_injective
  (Number_toString : float → string) (ToString : value → string)
  (st st1 st2 : Shim.state) (key1 key2 : string) (sym1 sym2 : value) :
  Shim.reachable Number_toString ToString st →
  Shim.Symbol_for Number_toString key1 st = Some (Return sym1, st1) →
  Shim.Symbol_for Number_toString key2 st1 = Some (Return sym2, st2) →
  Shim.isSymbol st1 sym1 = true →
  Shim.isSymbol st2 sym2 = true →
  key1 ≠ key2 →
  sym1 ≠ sym2.
Proof.
  intros Hst Hfor1 Hfor2 Hsym1 Hsym2 Hkeys Heq.
  assert (Shim.reachable Number_toString ToString st1) as Hst1.
  { by apply (Shim.reachable_run _ _ (Shim.OpFor key1) st st1 (Return sym1)). }
  assert (Shim.reachable Number_toString ToString st2) as Hst2.
  { by apply (Shim.reachable_run _ _ (Shim.OpFor key2) st1 st2 (Return sym2)). }
  destruct (Symbol_for_returns Number_toString ToString st key1 Hst)
    as (v1 & st1' & Hfor1' & Hcases1).
  rewrite Hfor1 in Hfor1'. injection Hfor1' as <- <-.
  destruct Hcases1 as [[_ (p1 & Hp1 & <-)] | [(name & ->) _]];
    [|cbn in Hsym1; discriminate].
  destruct (Symbol_for_returns Number_toString ToString st1 key2 Hst1)
    as (v2 & st2' & Hfor2' & Hcases2).
  rewrite Hfor2 in Hfor2'. injection Hfor2' as <- <-.
  destruct Hcases2 as [[_ (p2 & Hp2 & <-)] | [(name & ->) _]];
    [|cbn in Hsym2; discriminate].
  assert (lookup_property key1 (Shim.globalSymbols st2) = Some p1) as Hp1'.
  { apply (run_keeps_registered Number_toString ToString (Shim.OpFor key2) st1 st2
             (Return (p_value p2))); [|by eapply reachable_registry_ok|done|done].
    by eapply reachable_recorded. }
  destruct (reachable_registry_ok _ _ _ Hst2) as (_ & Hinj & _).
  by apply Hkeys, (Hinj key1 key2 p1 p2).
Qed.

Lemma Symbol_for_injective_witness :
  Shim.Symbol_for Sample.number_string "b"
    (Sample.after_calls [Shim.OpFor "a"] Shim.initial) =
    Some (Return (VObject (Loc 1)),
          Sample.after_calls [Shim.OpFor "a"; Shim.OpFor "b"] Shim.initial)
  ∧ VObject (Loc 0) ≠ VObject (Loc 1).
Proof.
  split; [by vm_compute|].
  apply (Symbol_for_injective Sample.number_string Sample.value_string Shim.initial
           (Sample.after_calls [Shim.OpFor "a"] Shim.initial)
           (Sample.after_calls [Shim.OpFor "a"; Shim.OpFor "b"] Shim.initial)
           "a" "b").
  - apply Shim.reachable_initial.
  - by vm_compute.
  - by vm_compute.
  - by vm_compute.
  - by vm_compute.
  - discriminate.
Defined.

(** X5.  A key that is the name of a setter [getSymbolName] put on
    [Object.prototype] (the property key of a symbol made before, such as
    '@@iterator') is registered through that setter, as a property that is
    not enumerable: [Symbol.for] returns one symbol for it, again and again,
    but [Symbol.keyFor] of that symbol returns [undefined]. *)
Theorem Symbol_for_hidden_key
  (Number_toString : float → string) (ToString : value → string)
  (st : Shim.state) (key : string) :
  Shim.reachable Number_toString ToString st →
  Shim.objPrototype st !! key = Some Shim.SetterOnly →
  lookup_property key (Shim.globalSymbols st) = None →
  ∃ sym st1,
    Shim.Symbol_for Number_toString key st = Some (Return sym, st1)
    ∧ Shim.isSymbol st1 sym = true
    ∧ Shim.Symbol_for Number_toString key st1 = Some (Return sym, st1)
    ∧ Shim.Symbol_keyFor ToString sym st1 = Some (Return VUndefined, st1).
Proof.
  intros Hst Hproto Hnone.
  pose proof (reachable_recorded _ _ _ Hst) as [Hsetters _].
  pose proof (reachable_registry_ok _ _ _ Hst) as Hreg.
  assert (ToBoolean (Shim.globalSymbols_get st key) = false) as Hfalsy.
  { unfold Shim.globalSymbols_get. by rewrite Hnone, Hproto. }
  destruct (Symbol_for_new Number_toString st key Hsetters Hnone Hfalsy)
    as (p & _ & Hfor).
  rewrite Hproto in Hfor.
  eexists _, _. split; [exact Hfor|].
  assert (Shim.isSymbol
            (Shim.State (<[Shim.postfixed key p:=true]> (Shim.created st))
               (<["@@" +:+ Shim.postfixed key p:=Shim.SetterOnly]> (Shim.objPrototype st))
               (Shim.globalSymbols st ++
                  [(key, Property (VObject (Loc (length (Shim.symbols st)))) false)])
               (Shim.symbols st ++
                  [ {| Shim.__description__ := key;
                       Shim.__name__ := "@@" +:+ Shim.postfixed key p |} ]))
            (VObject (Loc (length (Shim.symbols st)))) = true) as Hsym.
  { unfold Shim.isSymbol. cbn [ToBoolean andb Shim.symbols].
    apply bool_decide_eq_true.
    rewrite lookup_app_r, Nat.sub_diag by done. by eexists. }
  split_and!; [done| |].
  - unfold Shim.Symbol_for, Shim.globalSymbols_get. cbn [Shim.globalSymbols].
    rewrite lookup_property_app_new by done. by rewrite decide_True.
  - apply (keyFor_new_symbol ToString st); [done|done| |done].
    intros key' Hin Hhidden. simpl in Hhidden.
    apply list_elem_of_singleton in Hhidden as ->.
    apply lookup_property_is_Some in Hin as [q Hq]. congruence.
Qed.

Lemma Symbol_for_hidden_key_witness :
  ∃ sym st1,
    Shim.Symbol_for Sample.number_string "@@iterator"
      (Shim.loaded Sample.number_string) = Some (Return sym, st1)
    ∧ Shim.isSymbol st1 sym = true
    ∧ Shim.Symbol_for Sample.number_string "@@iterator" st1 = Some (Return sym, st1)
    ∧ Shim.Symbol_keyFor Sample.value_string sym st1 = Some (Return VUndefined, st1).
Proof.
  apply (Symbol_for_hidden_key Sample.number_string Sample.value_string).
  - apply loaded_reachable.
  - by vm_compute.
  - reflexivity.
Defined.

(** ** Composite handles *)

Section CompositeFacts.

Import Lang.

Context {World : Type}.
Implicit Types (store : list (Handle World)) (w : World) (handles ran : list nat).

(** The three things one call [handle.destroy()] can do. *)
Lemma destroy_at_cases (n : nat) store w :
  (store !! n = None
   ∧ destroy_at n store w = (store, w, Throw (VObject (Host "TypeError")), []))
  ∨ (spent store n ∧ destroy_at n store w = (store, w, Return (), []))
  ∨ (∃ f, store !! n = Some (MkHandle f DestroyOnce)
          ∧ destroy_at n store w =
              (<[n := MkHandle f DestroyNothing]> store, (f w).1, (f w).2, [n])).
Proof.
  unfold destroy_at. destruct (store !! n) as [[f []]|] eqn:Hn.
  - right. right. exists f. split; [done|].
    unfold destroy. simpl. by destruct (f w).
  - right. left. split; [by exists f|]. simpl. by rewrite list_insert_id.
  - by left.
Qed.

Lemma live_insert_spent store (n m : nat) f :
  live (<[n := MkHandle f DestroyNothing]> store) m → live store m ∧ m ≠ n.
Proof.
  intros [g Hg]. destruct (decide (m = n)) as [->|Hne].
  - destruct (decide (n < length store)) as [Hlt|Hge].
    + by rewrite list_lookup_insert_eq in Hg.
    + rewrite list_insert_ge in Hg by lia.
      apply lookup_lt_Some in Hg. lia.
  - rewrite list_lookup_insert_ne in Hg by done. split; [by exists g|done].
Qed.

Lemma spent_insert_spent store (n m : nat) f :
  n < length store →
  spent (<[n := MkHandle f DestroyNothing]> store) m ↔ spent store m ∨ m = n.
Proof.
  intros Hn. unfold spent. destruct (decide (m = n)) as [->|Hne].
  - rewrite list_lookup_insert_eq by done. split; [by right|]. intros _. by exists f.
  - rewrite list_lookup_insert_ne by done. split; [by left|]. by intros [?|?].
Qed.

(** The destructors the loop runs are those of handles that were live, each
    at most once; the handles it does not name stay as they are. *)
Lemma destroy_each_runs handles :
  ∀ store w store' w' c ran,
    destroy_each handles store w = (store', w', c, ran) →
    NoDup ran
    ∧ (∀ n, n ∈ ran → n ∈ handles ∧ live store n)
    ∧ length store' = length store
    ∧ (∀ n, n ∉ handles → store' !! n = store !! n)
    ∧ (∀ n, spent store n → spent store' n).
Proof.
  induction handles as [|n handles IH]; intros store w store' w' c ran; simpl.
  - intros [= <- <- <- <-]. split_and!; [constructor| |done|done|done].
    intros n Hn. by apply elem_of_nil in Hn.
  - destruct (destroy_at_cases n store w) as [[Hn ->]|[[Hn ->]|(f & Hn & ->)]].
    + intros [= <- <- <- <-]. split_and!; [constructor| |done|done|done].
      intros m Hm. by apply elem_of_nil in Hm.
    + destruct (destroy_each handles store w) as [[[store2 w2] c2] ran2] eqn:Heach.
      intros [= <- <- <- <-].
      destruct (IH _ _ _ _ _ _ Heach) as (Hnodup & Hran & Hlen & Hrest & Hspent).
      split_and!; [done| |done| |done].
      * intros m [Hm Hlive]%Hran. split; [by apply list_elem_of_further|done].
      * intros m Hm. apply Hrest. intros Hin. apply Hm. by apply list_elem_of_further.
    + assert (n < length store) as Hlt by (by eapply lookup_lt_Some).
      destruct (f w) as [w1 [[]|e]] eqn:Hf; simpl.
      * destruct (destroy_each handles _ w1) as [[[store2 w2] c2] ran2] eqn:Heach.
        intros [= <- <- <- <-].
        destruct (IH _ _ _ _ _ _ Heach) as (Hnodup & Hran & Hlen & Hrest & Hspent).
        split_and!.
        -- constructor; [|done].
           intros [_ [_ Hne]%live_insert_spent]%Hran. done.
        -- intros m [->|Hm]%elem_of_cons.
           ++ split; [apply list_elem_of_here|by exists f].
           ++ destruct (Hran m Hm) as [Hin [Hlive _]%live_insert_spent].
              split; [by apply list_elem_of_further|done].
        -- by rewrite Hlen, length_insert.
        -- intros m Hm. rewrite Hrest, list_lookup_insert_ne; [done| |].
           ++ intros ->. apply Hm, list_elem_of_here.
           ++ intros Hin. apply Hm. by apply list_elem_of_further.
        -- intros m Hm. apply Hspent, spent_insert_spent; [done|by left].
      * intros [= <- <- <- <-]. split_and!.
        -- apply NoDup_singleton.
        -- intros m ->%list_elem_of_singleton.
           split; [apply list_elem_of_here|by exists f].
        -- by rewrite length_insert.
        -- intros m Hm. rewrite list_lookup_insert_ne; [done|].
           intros ->. apply Hm, list_elem_of_here.
        -- intros m Hm. apply spent_insert_spent; [done|by left].
Qed.

(** When the loop completes, every handle it names is destroyed, and it
    has run the destructor of every one that was live. *)
Lemma destroy_each_completes handles :
  ∀ store w store' w' ran,
    destroy_each handles store w = (store', w', Return (), ran) →
    (∀ n, n ∈ handles → spent store' n)
    ∧ (∀ n, n ∈ handles → live store n → n ∈ ran).
Proof.
  induction handles as [|n handles IH]; intros store w store' w' ran; simpl.
  - intros _. split; intros n Hn; by apply elem_of_nil in Hn.
  - destruct (destroy_at_cases n store w) as [[Hn ->]|[[Hn ->]|(f & Hn & ->)]];
      [done| |].
    + destruct (destroy_each handles store w) as [[[store2 w2] c2] ran2] eqn:Heach.
      intros [= <- <- -> <-].
      destruct (IH _ _ _ _ _ Heach) as [Hspent Hran].
      destruct (destroy_each_runs _ _ _ _ _ _ _ Heach) as (_ & _ & _ & _ & Hkeep).
      split.
      * intros m [->|Hm]%elem_of_cons; [by apply Hkeep|by apply Hspent].
      * intros m [->|Hm]%elem_of_cons Hlive; [|by apply Hran].
        destruct Hn as [g Hg], Hlive as [g' Hg']. congruence.
    + assert (n < length store) as Hlt by (by eapply lookup_lt_Some).
      destruct (f w) as [w1 [[]|e]] eqn:Hf; simpl; [|done].
      destruct (destroy_each handles _ w1) as [[[store2 w2] c2] ran2] eqn:Heach.
      intros [= <- <- -> <-].
      destruct (IH _ _ _ _ _ Heach) as [Hspent Hran].
      destruct (destroy_each_runs _ _ _ _ _ _ _ Heach) as (_ & _ & _ & _ & Hkeep).
      split.
      * intros m [->|Hm]%elem_of_cons; [|by apply Hspent].
        apply Hkeep, spent_insert_spent; [done|by right].
      * intros m [->|Hm]%elem_of_cons Hlive; [apply list_elem_of_here|].
        destruct (decide (m = n)) as [->|Hne]; [apply list_elem_of_here|].
        apply list_elem_of_further, Hran; [done|].
        destruct Hlive as [g Hg]. exists g. by rewrite list_lookup_insert_ne.
Qed.

(** The loop over a list in two parts. *)
Lemma destroy_each_app before rest store w :
  destroy_each (before ++ rest) store w =
  let '(store1, w1, c1, ran1) := destroy_each before store w in
  match c1 with
  | Return _ =>
      let '(store2, w2, c2, ran2) := destroy_each rest store1 w1 in
      (store2, w2, c2, ran1 ++ ran2)
  | Throw e => (store1, w1, Throw e, ran1)
  end.
Proof.
  revert store w. induction before as [|n before IH]; intros store w; simpl.
  - by destruct (destroy_each rest store w) as [[[? ?] ?] ?].
  - destruct (destroy_at n store w) as [[[store1 w1] [[]|e]] ran1]; [|done].
    rewrite IH.
    destruct (destroy_each before store1 w1) as [[[store2 w2] [[]|e]] ran2]; [|done].
    destruct (destroy_each rest store2 w2) as [[[store3 w3] c3] ran3].
    by rewrite app_assoc.
Qed.


(** With handles that all exist and destructors that do not throw, the loop
    completes. *)
Lemma destroy_each_returns handles :
  ∀ store w,
    Forall (λ n, n < length store) handles →
    (∀ n handle w0, n ∈ handles → store !! n = Some handle →
                    (h_destructor handle w0).2 = Return ()) →
    ∃ store' w' ran, destroy_each handles store w = (store', w', Return (), ran).
Proof.
  induction handles as [|n handles IH]; intros store w Hall Hsafe; simpl.
  - by eexists _, _, _.
  - apply Forall_cons in Hall as [Hn Hall].
    destruct (destroy_at_cases n store w) as [[Hnone _]|[[_ ->]|(f & Hf & ->)]].
    + apply lookup_ge_None in Hnone. lia.
    + destruct (IH store w Hall) as (store' & w' & ran & ->).
      { intros m handle w0 Hm. apply Hsafe. by right. }
      by eexists _, _, _.
    + pose proof (Hsafe n _ w (list_elem_of_here _ _) Hf) as Hret.
      simpl in Hret. rewrite Hret.
      destruct (IH (<[n := MkHandle f DestroyNothing]> store) (f w).1)
        as (store' & w' & ran & ->).
      * eapply Forall_impl; [exact Hall|]. intros m Hm. by rewrite length_insert.
      * intros m handle w0 Hm. destruct (decide (m = n)) as [->|Hne].
        -- rewrite list_lookup_insert_eq by done. intros [= <-]. simpl.
           apply (Hsafe n _ w0 (list_elem_of_here _ _) Hf).
        -- rewrite list_lookup_insert_ne by done. apply Hsafe. by right.
      * by eexists _, _, _.
Qed.

Lemma destroy_composite handles store w :
  destroy (createCompositeHandle handles) (w, store) =
  let '(store', w', c, _) := destroy_each handles store w in
  DestroyResult
    (MkHandle (h_destructor (createCompositeHandle handles)) DestroyNothing)
    (w', store') c 1.
Proof.
  unfold createCompositeHandle. rewrite destroy_created. simpl.
  by destruct (destroy_each handles store w) as [[[store' w'] c] ran].
Qed.

End CompositeFacts.

(** X6.  Destroying a composite handle runs the destructor of a handle at
    most once, and only of a handle it names that was not destroyed before,
    so a handle named twice is destroyed once; the handles it does not name
    stay as they are, and those that were destroyed stay destroyed. *)
Theorem composite_destroys_at_most_once
  {World : Type} (handles : list nat) (store : list (Lang.Handle World)) (w : World) :
  ∃ store' w' c ran,
    Lang.destroy_each handles store w = (store', w', c, ran)
    ∧ Lang.r_world (Lang.destroy (Lang.createCompositeHandle handles) (w, store)) =
        (w', store')
    ∧ Lang.r_completion (Lang.destroy (Lang.createCompositeHandle handles) (w, store)) = c
    ∧ NoDup ran
    ∧ (∀ n, n ∈ ran → n ∈ handles ∧ Lang.live store n)
    ∧ (∀ n, n ∉ handles → store' !! n = store !! n)
    ∧ (∀ n, Lang.spent store n → Lang.spent store' n).
Proof.
  destruct (Lang.destroy_each handles store w) as [[[store' w'] c] ran] eqn:Heach.
  exists store', w', c, ran.
  destruct (destroy_each_runs _ _ _ _ _ _ _ Heach) as (? & ? & ? & ? & ?).
  rewrite destroy_composite, Heach. by split_and!.
Qed.



(** X8.  When the destructor of a handle throws, destroying the composite
    throws too, the loop stops there, and the composite is destroyed all
    the same: the handles named only after the one that threw are not
    destroyed, and destroying the composite again does nothing about it. *)
Theorem composite_stops_at_throw
  {World : Type} (before after : list nat) (n : nat)
  (store store1 store2 : list (Lang.Handle World)) (w w1 w2 : World)
  (ran1 ran2 : list nat) (e : value) (k : nat) :
  Lang.destroy_each before store w = (store1, w1, Return (), ran1) →
  Lang.destroy_at n store1 w1 = (store2, w2, Throw e, ran2) →
  1 ≤ k →
  Lang.destroy_times k (Lang.createCompositeHandle (before ++ n :: after)) (w, store) =
    (Lang.MkHandle
       (Lang.h_destructor (Lang.createCompositeHandle (before ++ n :: after)))
       Lang.DestroyNothing,
     (w2, store2),
     Throw e :: replicate (k - 1) (Return ()),
     1)
  ∧ ∀ m, m ∉ before → m ≠ n → store2 !! m = store !! m.
Proof.
  intros Hbefore Hat Hk. split.
  - destruct k as [|k]; [lia|].
    cbn [Lang.destroy_times]. rewrite destroy_composite, destroy_each_app, Hbefore.
    cbn [Lang.destroy_each]. rewrite Hat.
    cbn [Lang.r_handle Lang.r_world Lang.r_completion Lang.r_invoked].
    rewrite destroy_times_destroyed. by replace (S k - 1) with k by lia.
  - intros m Hm Hne.
    destruct (destroy_each_runs _ _ _ _ _ _ _ Hbefore) as (_ & _ & _ & Hrest & _).
    rewrite <- (Hrest m Hm).
    destruct (destroy_at_cases n store1 w1) as [[_ Heq]|[[_ Heq]|(f & _ & Heq)]];
      rewrite Heq in Hat; injection Hat as <- <- _ _; [done..|].
    by rewrite list_lookup_insert_ne.
Qed.

Lemma composite_stops_at_throw_witness :
  Lang.destroy_times 2 (Lang.createCompositeHandle [0; 1; 2]) (1, Sample.handles) =
    (Lang.MkHandle (Lang.h_destructor (Lang.createCompositeHandle [0; 1; 2]))
       Lang.DestroyNothing,
     (2, [ Lang.MkHandle (λ w, (S w, Return ())) Lang.DestroyNothing;
           Lang.MkHandle (λ w, (w, Throw VNull)) Lang.DestroyNothing;
           Lang.createHandle (λ w, (10 + w, Return ())) ]),
     [Throw VNull; Return ()],
     1).
Proof.
  apply (composite_stops_at_throw [0] [2] 1 Sample.handles
           [ Lang.MkHandle (λ w, (S w, Return ())) Lang.DestroyNothing;
             Lang.createHandle (λ w, (w, Throw VNull));
             Lang.createHandle (λ w, (10 + w, Return ())) ]
           _ 1 2 2 [0] [1] VNull 2).
  - reflexivity.
  - reflexivity.
  - lia.
Defined.

(** ** What a copy does to the heap *)

Section CopyFacts.

Import Lang.

Lemma assigned_to_refl tgt (h : heap) : assigned_to tgt h h.
Proof. split; [done|]. intros n o Hn. by exists o. Qed.

Lemma assigned_to_trans tgt (h1 h2 h3 : heap) :
  assigned_to tgt h1 h2 → assigned_to tgt h2 h3 → assigned_to tgt h1 h3.
Proof.
  intros [Hlen1 H1] [Hlen2 H2]. split; [lia|].
  intros n o Hn.
  destruct (H1 n o Hn) as (o' & Hn' & Hc' & Hp' & Hsame').
  destruct (H2 n o' Hn') as (o'' & Hn'' & Hc'' & Hp'' & Hsame'').
  exists o''. split_and!; [done|congruence|congruence|].
  intros Hne. by rewrite Hsame'', Hsame'.
Qed.

Lemma Set__length (h : heap) r key v : length (Set_ h r key v) = length h.
Proof.
  unfold Set_. destruct (heap_get h r); [|done].
  destruct r; cbn [heap_set]; [done|]. by rewrite length_insert.
Qed.

Lemma Set__assigned_to (h : heap) tgt key v : assigned_to tgt h (Set_ h tgt key v).
Proof.
  split; [by rewrite Set__length|].
  intros n o Hn. unfold Set_.
  destruct (heap_get h tgt) as [t|] eqn:Ht; [|by exists o].
  destruct tgt as [name|m]; cbn [heap_set heap_get] in *; [done|].
  destruct (decide (m = n)) as [->|Hne].
  - rewrite list_lookup_insert_eq by (by eapply lookup_lt_Some).
    eexists. split; [done|]. simplify_eq. by split_and!.
  - rewrite list_lookup_insert_ne by done. by exists o.
Qed.

(** A copy into a new object leaves the objects there were as they are. *)
Lemma assigned_to_new (h : heap) (o : object) (h' : heap) :
  assigned_to (Loc (length h)) (h ++ [o]) h' →
  length h ≤ length h' ∧ ∀ n o, h !! n = Some o → h' !! n = Some o.
Proof.
  intros [Hlen Hkeep]. rewrite length_app in Hlen. simpl in Hlen.
  split; [lia|]. intros n o0 Hn.
  destruct (Hkeep n o0) as (o' & Hn' & _ & _ & Hsame).
  - by apply lookup_app_l_Some.
  - rewrite Hn'. f_equal. apply Hsame. intros [= Heq].
    apply lookup_lt_Some in Hn. lia.
Qed.

Section Loops.

Variable copy : value → heap → completion error (value * heap).
Variable kwArgs : MixinArgs.

(** What lines 47-59 may do. *)
Hypothesis copy_ok :
  ∀ v h,
    match copy v h with
    | Return (v', h') =>
        (length h ≤ length h' ∧ ∀ n o, h !! n = Some o → h' !! n = Some o)
        ∧ (deep kwArgs = false → length h' = length h)
    | Throw e => deep kwArgs = true ∧ e = stack_overflow
    end.

Local Abbreviation loop_outcome := (Lang.loop_outcome kwArgs).

Lemma loop_outcome_bind (h : heap) c (f : heap → completion error heap) :
  loop_outcome h c →
  (∀ h1, loop_outcome h1 (f h1)) →
  loop_outcome h (bind c f).
Proof.
  intros Hc Hf. destruct c as [h1|e]; [|done]. simpl.
  specialize (Hf h1). destruct (f h1) as [h2|e]; [|done].
  destruct Hc as [Hc Hlen], Hf as [Hf Hlen']. split.
  - by eapply assigned_to_trans.
  - intros Hdeep. rewrite Hlen', Hlen; done.
Qed.

Lemma mixin_key_outcome source key (h : heap) :
  loop_outcome h (mixin_key copy kwArgs source key h).
Proof.
  unfold mixin_key.
  destruct (inherited kwArgs || hasOwnProperty h source key).
  - pose proof (copy_ok (Get h source key) h) as Hcopy.
    destruct (copy (Get h source key) h) as [[v h1]|e]; [|done].
    destruct Hcopy as [[Hlen Hkeep] Hshallow]. simpl. split.
    + eapply assigned_to_trans; [|apply Set__assigned_to].
      split; [done|]. intros n o Hn. exists o. split_and!; auto.
    + intros Hdeep. by rewrite Set__length, Hshallow.
  - split; [apply assigned_to_refl|done].
Qed.

Lemma mixin_keys_outcome source keys :
  ∀ h, loop_outcome h (mixin_keys copy kwArgs source keys h).
Proof.
  induction keys as [|key keys IH]; intros h; simpl.
  - split; [apply assigned_to_refl|done].
  - apply loop_outcome_bind; [apply mixin_key_outcome|apply IH].
Qed.

Lemma mixin_sources_outcome srcs :
  ∀ h, loop_outcome h (mixin_sources copy kwArgs srcs h).
Proof.
  induction srcs as [|source srcs IH]; intros h; simpl.
  - split; [apply assigned_to_refl|done].
  - apply loop_outcome_bind; [apply mixin_keys_outcome|apply IH].
Qed.

End Loops.

Lemma _mixin_unfold stack kwArgs h :
  _mixin stack kwArgs h =
  bind (mixin_sources (copy_value stack kwArgs) kwArgs (sources kwArgs) h)
    (λ h', Return (target kwArgs, h')).
Proof. by destruct stack. Qed.

Lemma _mixin_outcome stack :
  ∀ kwArgs h, copy_outcome (deep kwArgs) (target kwArgs) h (_mixin stack kwArgs h).
Proof.
  induction stack as [|stack IH]; intros kwArgs h; rewrite _mixin_unfold.
  - pose proof (mixin_sources_outcome (copy_value 0 kwArgs) kwArgs) as Hloop.
    unfold Lang.loop_outcome in Hloop.
    match type of Hloop with (?P → _) => assert P as Hcopy end.
    { intros v h0. unfold copy_value.
      destruct (deep kwArgs) eqn:Hdeep; [|by split].
      destruct v; try (by split). by destruct (isObject h0 _). }
    specialize (Hloop Hcopy (sources kwArgs) h).
    destruct (mixin_sources _ _ _ _) as [h'|e]; simpl; [|done].
    by destruct Hloop.
  - pose proof (mixin_sources_outcome (copy_value (S stack) kwArgs) kwArgs) as Hloop.
    unfold Lang.loop_outcome in Hloop.
    match type of Hloop with (?P → _) => assert P as Hcopy end.
    { intros v h0. unfold copy_value.
      destruct (deep kwArgs) eqn:Hdeep; [|by split].
      destruct v as [| | | | |r]; try (by split).
      destruct (isObject h0 _); [|by split].
      cbn [Object_literal alloc].
      specialize (IH {| deep := true; inherited := inherited kwArgs;
                        sources := [r]; target := Loc (length h0) |}
                    (h0 ++ [Object ClassObject (Some (Host "Object.prototype")) []])).
      destruct (_mixin stack _ _) as [[copied h2]|e]; simpl in *; [|done].
      destruct IH as (_ & Hassigned & _). split; [|done].
      by eapply assigned_to_new. }
    specialize (Hloop Hcopy (sources kwArgs) h).
    destruct (mixin_sources _ _ _ _) as [h'|e]; simpl; [|done].
    by destruct Hloop.
Qed.

Lemma Object_assign_keys_outcome tgt source keys :
  ∀ h, assigned_to tgt h (Object_assign_keys tgt source keys h)
       ∧ length (Object_assign_keys tgt source keys h) = length h.
Proof.
  induction keys as [|key keys IH]; intros h; cbn [Object_assign_keys].
  - split; [apply assigned_to_refl|done].
  - set (h1 := match lookup_property key (own_properties h source) with
               | Some p => if p_enumerable p then Set_ h tgt key (Get h source key) else h
               | None => h
               end).
    assert (assigned_to tgt h h1 ∧ length h1 = length h) as [Hh1 Hlen1].
    { unfold h1. destruct (lookup_property _ _) as [p|];
        [|split; [apply assigned_to_refl|done]].
      destruct (p_enumerable p); [|split; [apply assigned_to_refl|done]].
      split; [apply Set__assigned_to|apply Set__length]. }
    destruct (IH h1) as [Hrest Hlen]. split; [|lia].
    by eapply assigned_to_trans.
Qed.

Lemma Object_assign_outcome tgt srcs :
  ∀ h, (Object_assign tgt srcs h).1 = tgt
       ∧ assigned_to tgt h (Object_assign tgt srcs h).2
       ∧ length (Object_assign tgt srcs h).2 = length h.
Proof.
  induction srcs as [|source srcs IH]; intros h; cbn [Object_assign].
  - split_and!; [done|apply assigned_to_refl|done].
  - destruct (Object_assign_keys_outcome tgt source (own_properties h source).*1 h)
      as [Hkeys Hlen].
    destruct (IH (Object_assign_keys tgt source (own_properties h source).*1 h))
      as (Htgt & Hrest & Hlen').
    split_and!; [done| |lia]. by eapply assigned_to_trans.
Qed.

End CopyFacts.


(** ** [assign] without the host's [Object.assign] *)

Section AssignFacts.

Import Lang.

Lemma lookup_property_app key (pre rest : properties) :
  lookup_property key (pre ++ rest) =
  match lookup_property key pre with
  | Some p => Some p
  | None => lookup_property key rest
  end.
Proof.
  induction pre as [|[k p] pre IH]; simpl; [done|].
  by destruct (decide (k = key)).
Qed.

Lemma assign_property_same key p (props : properties) :
  lookup_property key props = Some p →
  assign_property key (p_value p) props = props.
Proof.
  induction props as [|[k q] props IH]; simpl; [done|].
  destruct (decide (k = key)) as [->|Hk].
  - intros [= ->]. by destruct p.
  - intros Hp. by rewrite IH.
Qed.

Lemma assign_property_again key v e (props : properties) :
  lookup_property key props = Some (Property v e) →
  assign_property key v props = props.
Proof. intros Hp. apply (assign_property_same key (Property v e) props Hp). Qed.

Lemma heap_set_same (h : heap) r o : heap_get h r = Some o → heap_set h r o = h.
Proof.
  destruct r as [name|n]; cbn [heap_get heap_set]; [done|]. apply list_insert_id.
Qed.

Lemma heap_set_set (h : heap) r o o' : heap_set (heap_set h r o) r o' = heap_set h r o'.
Proof.
  destruct r as [name|n]; cbn [heap_set]; [done|]. apply list_insert_insert_eq.
Qed.

Lemma heap_get_set (h : heap) r o o' :
  heap_get h r = Some o → heap_get (heap_set h r o') r = Some o'.
Proof.
  destruct r as [name|n]; cbn [heap_get heap_set]; [done|].
  intros Hn. apply list_lookup_insert_eq. by eapply lookup_lt_Some.
Qed.

Lemma heap_get_set_ne (h : heap) r r' o' :
  r ≠ r' → heap_get (heap_set h r o') r' = heap_get h r'.
Proof.
  destruct r as [name|n], r' as [name'|n']; cbn [heap_get heap_set]; try done.
  intros Hne. apply list_lookup_insert_ne. congruence.
Qed.

Lemma Set__unallocated (h : heap) r key v : heap_get h r = None → Set_ h r key v = h.
Proof. unfold Set_. by intros ->. Qed.

(** Assigning to a property the value it has changes nothing. *)
Lemma Set__same (h : heap) r key p :
  lookup_property key (own_properties h r) = Some p →
  Set_ h r key (p_value p) = h.
Proof.
  unfold own_properties, Set_. destruct (heap_get h r) as [o|] eqn:Ho; [|done].
  intros Hp. rewrite (assign_property_same _ _ _ Hp).
  apply heap_set_same. by destruct o.
Qed.

Lemma copy_properties_app wanted from keys1 keys2 :
  ∀ to,
    copy_properties wanted from (keys1 ++ keys2) to =
    copy_properties wanted from keys2 (copy_properties wanted from keys1 to).
Proof. induction keys1 as [|k keys1 IH]; intros to; simpl; [done|apply IH]. Qed.

Lemma copy_properties_absent wanted from keys :
  (∀ key, key ∈ keys → lookup_property key from = None) →
  ∀ to, copy_properties wanted from keys to = to.
Proof.
  induction keys as [|k keys IH]; intros Habsent to; simpl; [done|].
  rewrite (Habsent k) by apply list_elem_of_here.
  apply IH. intros key Hkey. apply Habsent. by right.
Qed.

(** Over the properties of an object, the keys [for (key in ...)] visits
    and all the keys filtered by [enumerable] lead to the same copy. *)
Lemma copy_properties_visit (P : properties) :
  ∀ (rest pre : properties) (seen : list string) (to : properties),
    P = pre ++ rest →
    (∀ key, key ∈ seen ↔ key ∈ pre.*1) →
    (∀ key p, key ∈ seen → lookup_property key P = Some p → p_enumerable p = true →
              ∃ e, lookup_property key to = Some (Property (p_value p) e)) →
    copy_properties (λ _, true) P (visit_properties rest seen).1 to =
    copy_properties p_enumerable P rest.*1 to.
Proof.
  induction rest as [|[k p] rest IH]; intros pre seen to HP Hseen Hto; [done|].
  cbn [visit_properties fmap list_fmap fst copy_properties].
  assert (P = (pre ++ [(k, p)]) ++ rest) as HP' by (by rewrite <- app_assoc).
  destruct (decide (k ∈ seen)) as [Hin|Hnew].
  - assert (match lookup_property k P with
            | Some p0 => if p_enumerable p0 then assign_property k (p_value p0) to else to
            | None => to
            end = to) as ->.
    { destruct (lookup_property k P) as [p0|] eqn:Hp0; [|done].
      destruct (p_enumerable p0) eqn:He; [|done].
      destruct (Hto k p0 Hin Hp0 He) as [e Hk].
      by eapply assign_property_again. }
    apply (IH (pre ++ [(k, p)])); [done| |done].
    intros key. rewrite fmap_app, elem_of_app, <- Hseen. simpl.
    rewrite list_elem_of_singleton. split; [by left|]. by intros [?| ->].
  - assert (lookup_property k P = Some p) as Hp.
    { rewrite HP, lookup_property_app.
      destruct (lookup_property k pre) as [q|] eqn:Hq.
      - destruct Hnew. apply Hseen, lookup_property_is_Some. eauto.
      - simpl. by rewrite decide_True. }
    rewrite Hp.
    assert (∀ key, key ∈ seen ++ [k] ↔ key ∈ (pre ++ [(k, p)]).*1) as Hseen'.
    { intros key. rewrite fmap_app, !elem_of_app, <- Hseen. done. }
    specialize (IH (pre ++ [(k, p)]) (seen ++ [k])).
    destruct (visit_properties rest (seen ++ [k])) as [keys seen'].
    cbn [fst] in *. destruct (p_enumerable p) eqn:He.
    + cbn [copy_properties]. rewrite Hp.
      apply IH; [done..|].
      intros key q Hkey Hq Hq'. rewrite lookup_assign_property.
      destruct (decide (k = key)) as [->|Hne].
      * assert (q = p) as -> by congruence. eauto.
      * apply Hto; [|done..].
        apply elem_of_app in Hkey as [?|Hkey]; [done|].
        apply list_elem_of_singleton in Hkey. congruence.
    + apply IH; [done..|].
      intros key q Hkey Hq Hq'.
      apply elem_of_app in Hkey as [?|Hkey]; [by apply Hto|].
      apply list_elem_of_singleton in Hkey as ->. congruence.
Qed.

Lemma copy_properties_for_in (h : heap) (source : ref) (to : properties) :
  copy_properties (λ _, true) (own_properties h source) (for_in h source) to =
  copy_properties p_enumerable (own_properties h source) (own_properties h source).*1 to.
Proof.
  unfold for_in. cbn [for_in_chain].
  pose proof (copy_properties_visit (own_properties h source)
                (own_properties h source) [] [] to eq_refl) as Hvisit.
  pose proof (visit_properties_seen (own_properties h source) []) as Hseen.
  destruct (visit_properties (own_properties h source) []) as [keys seen'].
  cbn [fst snd] in *. rewrite copy_properties_app, Hvisit.
  - apply copy_properties_absent. intros key Hkey.
    apply for_in_chain_unseen in Hkey.
    destruct (lookup_property key (own_properties h source)) as [p|] eqn:Hp; [|done].
    destruct Hkey. apply Hseen. right. apply lookup_property_is_Some. eauto.
  - done.
  - intros key p Hkey. by apply elem_of_nil in Hkey.
Qed.

Section Shallow.

Variable copy : value → heap → completion error (value * heap).
Variable kwArgs : MixinArgs.

Hypothesis copy_shallow : ∀ v h, copy v h = Return (v, h).
Hypothesis not_inherited : inherited kwArgs = false.

Local Abbreviation tgt := (target kwArgs).

Lemma mixin_keys_unallocated source keys (h : heap) :
  heap_get h tgt = None → mixin_keys copy kwArgs source keys h = Return h.
Proof.
  intros Htgt. induction keys as [|key keys IH]; [done|].
  cbn [mixin_keys]. unfold mixin_key.
  destruct (inherited kwArgs || hasOwnProperty h source key); [|done].
  rewrite copy_shallow. cbn [bind]. by rewrite Set__unallocated.
Qed.

Lemma Object_assign_keys_unallocated source keys (h : heap) :
  heap_get h tgt = None → Object_assign_keys tgt source keys h = h.
Proof.
  intros Htgt. induction keys as [|key keys IH]; [done|].
  cbn [Object_assign_keys]. rewrite Set__unallocated by done.
  destruct (lookup_property _ _) as [p|]; [|done]. by destruct (p_enumerable p).
Qed.

Lemma mixin_keys_self keys (h : heap) :
  mixin_keys copy kwArgs tgt keys h = Return h.
Proof.
  induction keys as [|key keys IH]; [done|].
  cbn [mixin_keys]. unfold mixin_key. rewrite not_inherited. cbn [orb].
  unfold hasOwnProperty.
  destruct (lookup_property key (own_properties h tgt)) as [p|] eqn:Hp.
  - rewrite bool_decide_eq_true_2 by eauto. rewrite copy_shallow. cbn [bind].
    by rewrite (Get_own _ _ _ _ Hp), (Set__same _ _ _ _ Hp).
  - by rewrite bool_decide_eq_false_2 by (by intros [? ?]).
Qed.

Lemma Object_assign_keys_self keys (h : heap) :
  Object_assign_keys tgt tgt keys h = h.
Proof.
  induction keys as [|key keys IH]; [done|].
  cbn [Object_assign_keys].
  destruct (lookup_property key (own_properties h tgt)) as [p|] eqn:Hp; [|done].
  destruct (p_enumerable p); [|done].
  by rewrite (Get_own _ _ _ _ Hp), (Set__same _ _ _ _ Hp).
Qed.

Lemma mixin_keys_into source c pr (P : properties) keys :
  tgt ≠ source →
  ∀ (h : heap) (T : properties),
    own_properties h source = P →
    heap_get h tgt = Some (Object c pr T) →
    mixin_keys copy kwArgs source keys h =
    Return (heap_set h tgt (Object c pr (copy_properties (λ _, true) P keys T))).
Proof.
  intros Hne. induction keys as [|key keys IH]; intros h T HP Htgt.
  - cbn [mixin_keys copy_properties]. by rewrite heap_set_same.
  - cbn [mixin_keys copy_properties]. unfold mixin_key.
    rewrite not_inherited. cbn [orb]. unfold hasOwnProperty. rewrite HP.
    destruct (lookup_property key P) as [p|] eqn:Hp.
    + rewrite bool_decide_eq_true_2 by eauto. rewrite copy_shallow. cbn [bind].
      rewrite (Get_own _ _ _ p) by (by rewrite HP).
      unfold Set_ at 1. rewrite Htgt. cbn [o_class o_proto o_props].
      rewrite (IH _ (assign_property key (p_value p) T)).
      * by rewrite heap_set_set.
      * unfold own_properties. by rewrite heap_get_set_ne.
      * by eapply heap_get_set.
    + rewrite bool_decide_eq_false_2 by (by intros [? ?]). cbn [bind].
      by apply IH.
Qed.

Lemma Object_assign_keys_into source c pr (P : properties) keys :
  tgt ≠ source →
  ∀ (h : heap) (T : properties),
    own_properties h source = P →
    heap_get h tgt = Some (Object c pr T) →
    Object_assign_keys tgt source keys h =
    heap_set h tgt (Object c pr (copy_properties p_enumerable P keys T)).
Proof.
  intros Hne. induction keys as [|key keys IH]; intros h T HP Htgt.
  - cbn [Object_assign_keys copy_properties]. by rewrite heap_set_same.
  - cbn [Object_assign_keys copy_properties]. rewrite HP.
    destruct (lookup_property key P) as [p|] eqn:Hp; [|by apply IH].
    destruct (p_enumerable p); [|by apply IH].
    rewrite (Get_own _ _ _ p) by (by rewrite HP).
    unfold Set_ at 1. rewrite Htgt. cbn [o_class o_proto o_props].
    rewrite (IH _ (assign_property key (p_value p) T)).
    + by rewrite heap_set_set.
    + unfold own_properties. by rewrite heap_get_set_ne.
    + by eapply heap_get_set.
Qed.

(** One source: the two loops of [_mixin] and those of [Object.assign]. *)
Lemma mixin_keys_Object_assign source (h : heap) :
  mixin_keys copy kwArgs source (for_in h source) h =
  Return (Object_assign_keys tgt source (own_properties h source).*1 h).
Proof.
  destruct (heap_get h tgt) as [[c pr T]|] eqn:Htgt.
  - destruct (decide (tgt = source)) as [<-|Hne].
    + by rewrite mixin_keys_self, Object_assign_keys_self.
    + rewrite (mixin_keys_into source c pr (own_properties h source) _ Hne h T)
        by done.
      rewrite (Object_assign_keys_into source c pr (own_properties h source) _ Hne h T)
        by done.
      by rewrite copy_properties_for_in.
  - by rewrite mixin_keys_unallocated, Object_assign_keys_unallocated.
Qed.

Lemma mixin_sources_Object_assign srcs :
  ∀ h, mixin_sources copy kwArgs srcs h = Return (Object_assign tgt srcs h).2.
Proof.
  induction srcs as [|source srcs IH]; intros h; [done|].
  cbn [mixin_sources Object_assign].
  rewrite mixin_keys_Object_assign. cbn [bind]. apply IH.
Qed.

End Shallow.

Lemma Object_assign_target tgt srcs : ∀ h, (Object_assign tgt srcs h).1 = tgt.
Proof. induction srcs as [|source srcs IH]; intros h; [done|apply IH]. Qed.

End AssignFacts.

(** X10.  [assign] gives the same result on a host with [Object.assign] and
    on one without: the loops of [_mixin], run shallow over own properties,
    do what [Object.assign] does, whatever the target and the sources are
    (the target among the sources, or an object of the host, included). *)
Theorem assign_agrees_with_Object_assign
  (has : string → bool) (stack_limit : nat)
  (tgt : ref) (srcs : list ref) (h : heap) :
  Lang.assign has stack_limit tgt srcs h = Return (Lang.Object_assign tgt srcs h).
Proof.
  unfold Lang.assign. destruct (has "object-assign"); [done|].
  set (kwArgs := {| Lang.deep := false; Lang.inherited := false;
                    Lang.sources := srcs; Lang.target := tgt |}).
  rewrite _mixin_unfold.
  rewrite (mixin_sources_Object_assign (Lang.copy_value stack_limit kwArgs) kwArgs
             (λ _ _, eq_refl) eq_refl).
  cbn [Lang.bind Lang.target Lang.sources kwArgs].
  pose proof (Object_assign_target tgt srcs h) as Htgt.
  destruct (Lang.Object_assign tgt srcs h) as [r h']. simpl in Htgt. by subst.
Qed.

(** ** What a copy leaves in the target *)

Section TargetFacts.

Import Lang.

Lemma assigned_to_heap_get tgt (h h' : heap) r o :
  assigned_to tgt h h' → heap_get h r = Some o →
  ∃ o', heap_get h' r = Some o'
        ∧ o_class o' = o_class o ∧ o_proto o' = o_proto o
        ∧ (tgt ≠ r → o' = o).
Proof.
  intros [_ Hkeep]. destruct r as [name|n]; cbn [heap_get]; [done|].
  intros Hn. destruct (Hkeep n o Hn) as (o' & ? & ? & ? & Hsame).
  exists o'. split_and!; [done..|]. intros Hne. apply Hsame. congruence.
Qed.

Lemma assigned_to_own_properties tgt (h h' : heap) r key p :
  assigned_to tgt h h' → tgt ≠ r →
  lookup_property key (own_properties h r) = Some p →
  own_properties h' r = own_properties h r.
Proof.
  intros Hassigned Hne. unfold own_properties.
  destruct (heap_get h r) as [o|] eqn:Ho; [|done]. intros _.
  destruct (assigned_to_heap_get _ _ _ _ _ Hassigned Ho) as (o' & -> & _ & _ & Hsame).
  by rewrite Hsame.
Qed.

Lemma assigned_to_isObject tgt (h h' : heap) v :
  assigned_to tgt h h' → value_allocated h v → isObject h' v = isObject h v.
Proof.
  intros Hassigned Hv. destruct v as [| | | | |r]; try done. simpl in *.
  destruct (heap_get h r) as [o|] eqn:Ho.
  - destruct (assigned_to_heap_get _ _ _ _ _ Hassigned Ho) as (o' & -> & -> & _). done.
  - destruct r as [name|n]; [done|]. simpl in *.
    apply lookup_ge_None in Ho. lia.
Qed.

Lemma for_in_chain_NoDup (h : heap) :
  ∀ fuel o seen, NoDup (for_in_chain fuel h o seen).
Proof.
  assert (∀ props seen, NoDup (visit_properties props seen).1) as Hvisit.
  { induction props as [|[k p] props IH]; intros seen; simpl; [constructor|].
    destruct (decide (k ∈ seen)); [apply IH|].
    pose proof (visit_properties_keys props (seen ++ [k]) k) as Hk.
    specialize (IH (seen ++ [k])).
    destruct (visit_properties props (seen ++ [k])) as [keys seen']. simpl in *.
    destruct (p_enumerable p); [|done]. constructor; [|done].
    intros Hin. apply Hk in Hin as [Hnot _]. apply Hnot.
    apply elem_of_app. right. apply list_elem_of_here. }
  induction fuel as [|fuel IH]; intros o seen; simpl; [constructor|].
  destruct o as [r|]; [|constructor].
  specialize (Hvisit (own_properties h r) seen).
  pose proof (visit_properties_keys (own_properties h r) seen) as Hkeys.
  pose proof (visit_properties_seen (own_properties h r) seen) as Hseen.
  destruct (visit_properties (own_properties h r) seen) as [keys seen'].
  simpl in *. apply NoDup_app. split_and!; [done| |apply IH].
  intros key Hkey Hchain. apply for_in_chain_unseen in Hchain. apply Hchain.
  apply Hseen. right. apply Hkeys in Hkey as (_ & p & Hp & _).
  apply lookup_property_is_Some. eauto.
Qed.

(** [for (key in r)] visits a key once. *)
Lemma for_in_NoDup (h : heap) (r : ref) : NoDup (for_in h r).
Proof. apply for_in_chain_NoDup. Qed.

Section Loops.

Variable copy : value → heap → completion error (value * heap).
Variable kwArgs : MixinArgs.

Hypothesis copy_ok :
  ∀ v h,
    match copy v h with
    | Return (v', h') =>
        (length h ≤ length h' ∧ ∀ n o, h !! n = Some o → h' !! n = Some o)
        ∧ (deep kwArgs = false → length h' = length h)
    | Throw e => deep kwArgs = true ∧ e = stack_overflow
    end.

Local Abbreviation tgt := (target kwArgs).

Lemma mixin_keys_app source keys1 keys2 :
  ∀ h, mixin_keys copy kwArgs source (keys1 ++ keys2) h =
       bind (mixin_keys copy kwArgs source keys1 h) (mixin_keys copy kwArgs source keys2).
Proof.
  induction keys1 as [|k keys1 IH]; intros h; simpl; [done|].
  destruct (mixin_key copy kwArgs source k h) as [h1|e]; simpl; [apply IH|done].
Qed.

Lemma copy_keeps v (h h' : heap) v' r o :
  copy v h = Return (v', h') → heap_get h r = Some o → heap_get h' r = Some o.
Proof.
  intros Hcopy. pose proof (copy_ok v h) as Hok. rewrite Hcopy in Hok.
  destruct Hok as [[_ Hkeep] _]. destruct r as [name|n]; cbn [heap_get]; [done|].
  apply Hkeep.
Qed.

(** What an assignment of the loop leaves under [key] in the target. *)
Lemma mixin_key_assigns source key (h h' : heap) t :
  heap_get h tgt = Some t →
  mixin_key copy kwArgs source key h = Return h' →
  inherited kwArgs || hasOwnProperty h source key = true →
  ∃ v h1 e,
    copy (Get h source key) h = Return (v, h1)
    ∧ h' = Set_ h1 tgt key v
    ∧ lookup_property key (own_properties h' tgt) = Some (Property v e).
Proof.
  intros Htgt. unfold mixin_key. intros Hrun Hcond. rewrite Hcond in Hrun.
  destruct (copy (Get h source key) h) as [[v h1]|e] eqn:Hcopy; [|done].
  simpl in Hrun. injection Hrun as <-.
  pose proof (copy_keeps _ _ _ _ _ _ Hcopy Htgt) as Htgt1.
  exists v, h1. eexists. split_and!; [done..|].
  unfold own_properties, Set_. rewrite Htgt1.
  rewrite (heap_get_set _ _ _ _ Htgt1). cbn [o_props].
  by rewrite lookup_assign_property, decide_True.
Qed.

Lemma mixin_key_other source k key (h h' : heap) t :
  k ≠ key →
  heap_get h tgt = Some t →
  mixin_key copy kwArgs source k h = Return h' →
  lookup_property key (own_properties h' tgt) = lookup_property key (own_properties h tgt).
Proof.
  intros Hne Htgt. unfold mixin_key.
  destruct (inherited kwArgs || hasOwnProperty h source k); [|by intros [= <-]].
  destruct (copy (Get h source k) h) as [[v h1]|e] eqn:Hcopy; [|done].
  simpl. intros [= <-].
  pose proof (copy_keeps _ _ _ _ _ _ Hcopy Htgt) as Htgt1.
  unfold own_properties, Set_. rewrite Htgt1, Htgt.
  rewrite (heap_get_set _ _ _ _ Htgt1). cbn [o_props].
  by rewrite lookup_assign_property, decide_False.
Qed.

Lemma mixin_keys_other source key keys :
  key ∉ keys →
  ∀ (h h' : heap) t,
    heap_get h tgt = Some t →
    mixin_keys copy kwArgs source keys h = Return h' →
    lookup_property key (own_properties h' tgt) =
    lookup_property key (own_properties h tgt).
Proof.
  induction keys as [|k keys IH]; intros Hkey h h' t Htgt; simpl.
  - by intros [= <-].
  - apply not_elem_of_cons in Hkey as [Hne Hkey].
    destruct (mixin_key copy kwArgs source k h) as [h1|e] eqn:Hk; [|done]. simpl.
    intros Hrest.
    pose proof (mixin_key_outcome copy kwArgs copy_ok source k h) as Hout.
    rewrite Hk in Hout. destruct Hout as [Hassigned _].
    destruct (assigned_to_heap_get _ _ _ _ _ Hassigned Htgt) as (t1 & Htgt1 & _).
    rewrite (IH Hkey h1 h' t1 Htgt1 Hrest).
    by eapply mixin_key_other.
Qed.

(** The loop over the keys, around the one key looked at. *)
Lemma mixin_keys_split source key keys (h h' : heap) :
  NoDup keys → key ∈ keys →
  mixin_keys copy kwArgs source keys h = Return h' →
  ∃ before after h1 h2,
    keys = before ++ key :: after
    ∧ (key ∉ after)
    ∧ mixin_keys copy kwArgs source before h = Return h1
    ∧ mixin_key copy kwArgs source key h1 = Return h2
    ∧ mixin_keys copy kwArgs source after h2 = Return h'.
Proof.
  intros Hnodup Hkey Hrun.
  apply list_elem_of_split in Hkey as (before & after & ->).
  apply NoDup_app in Hnodup as (_ & _ & Hnodup). apply NoDup_cons in Hnodup as [Hafter _].
  rewrite mixin_keys_app in Hrun.
  destruct (mixin_keys copy kwArgs source before h) as [h1|e] eqn:Hbefore; [|done].
  simpl in Hrun.
  destruct (mixin_key copy kwArgs source key h1) as [h2|e] eqn:Hk; [|done].
  simpl in Hrun. by exists before, after, h1, h2.
Qed.

End Loops.

Lemma copy_value_ok stack kwArgs :
  ∀ v h,
    match copy_value stack kwArgs v h with
    | Return (v', h') =>
        (length h ≤ length h' ∧ ∀ n o, h !! n = Some o → h' !! n = Some o)
        ∧ (deep kwArgs = false → length h' = length h)
    | Throw e => deep kwArgs = true ∧ e = stack_overflow
    end.
Proof.
  intros v h. unfold copy_value.
  destruct (deep kwArgs) eqn:Hdeep; [|by split].
  destruct v as [| | | | |r]; try (by split).
  destruct (isObject h _); [|by split].
  destruct stack as [|stack]; [done|].
  cbn [Object_literal alloc].
  pose proof (_mixin_outcome stack
                {| deep := true; inherited := inherited kwArgs;
                   sources := [r]; target := Loc (length h) |}
                (h ++ [Object ClassObject (Some (Host "Object.prototype")) []])) as Hout.
  destruct (_mixin stack _ _) as [[copied h2]|e]; simpl in *; [|done].
  destruct Hout as (_ & Hassigned & _). split; [|done].
  by eapply assigned_to_new.
Qed.

(** What a deep copy makes of a value: a plain object is copied into a new
    one, any other value is taken as it is. *)
Lemma copy_value_deep stack kwArgs v (h h1 : heap) v' :
  deep kwArgs = true →
  copy_value stack kwArgs v h = Return (v', h1) →
  if isObject h v
  then ∃ c, v' = VObject (Loc (length h))
            ∧ h1 !! length h = Some c
            ∧ o_class c = ClassObject
            ∧ o_proto c = Some (Host "Object.prototype")
  else v' = v ∧ h1 = h.
Proof.
  intros Hdeep. unfold copy_value. rewrite Hdeep.
  destruct (isObject h v) eqn:Hobj.
  - destruct v as [| | | | |r]; try done.
    destruct stack as [|stack]; [done|].
    cbn [Object_literal alloc].
    pose proof (_mixin_outcome stack
                  {| deep := true; inherited := inherited kwArgs;
                     sources := [r]; target := Loc (length h) |}
                  (h ++ [Object ClassObject (Some (Host "Object.prototype")) []])) as Hout.
    destruct (_mixin stack _ _) as [[copied h2]|e]; simpl in *; [|done].
    intros [= <- <-]. destruct Hout as (-> & [_ Hkeep] & _).
    destruct (Hkeep (length h) (Object ClassObject (Some (Host "Object.prototype")) []))
      as (c & Hc & Hclass & Hproto & _).
    { by rewrite lookup_app_r, Nat.sub_diag. }
    by exists c.
  - destruct v as [| | | | |r]; by intros [= <- <-].
Qed.

(** One source, deep: what is left under an own enumerable key. *)
Lemma _mixin_deep_key stack inh tgt source (h h' : heap) r t key p :
  tgt ≠ source →
  heap_get h tgt = Some t →
  lookup_property key (own_properties h source) = Some p →
  p_enumerable p = true →
  value_allocated h (p_value p) →
  _mixin stack {| deep := true; inherited := inh; sources := [source]; target := tgt |} h
    = Return (r, h') →
  if isObject h (p_value p)
  then ∃ m c, Get h' tgt key = VObject (Loc m)
              ∧ length h ≤ m
              ∧ h' !! m = Some c
              ∧ o_class c = ClassObject
              ∧ o_proto c = Some (Host "Object.prototype")
  else Get h' tgt key = p_value p.
Proof.
  intros Hne Htgt Hp Henum Hvalue. rewrite _mixin_unfold.
  set (kwArgs := {| deep := true; inherited := inh; sources := [source]; target := tgt |}).
  cbn [sources mixin_sources kwArgs]. fold kwArgs.
  destruct (mixin_keys (copy_value stack kwArgs) kwArgs source (for_in h source) h)
    as [hk|e] eqn:Hkeys; [|done].
  cbn [bind target kwArgs]. intros [= <- <-].
  pose proof (copy_value_ok stack kwArgs) as Hok.
  destruct (mixin_keys_split (copy_value stack kwArgs) kwArgs source key _ h hk
              (for_in_NoDup h source))
    as (before & after & h1 & h2 & _ & Hafter & Hrun1 & Hrun2 & Hrun3); [|done|].
  { by apply (for_in_own h source key p Hp). }
  pose proof (mixin_keys_outcome _ _ Hok source before h) as Hout1.
  rewrite Hrun1 in Hout1. destruct Hout1 as [Hassigned1 _].
  destruct (assigned_to_heap_get _ _ _ _ _ Hassigned1 Htgt) as (t1 & Htgt1 & _).
  pose proof (assigned_to_own_properties _ _ _ _ _ _ Hassigned1 Hne Hp) as Hsource1.
  destruct (mixin_key_assigns _ _ Hok source key h1 h2 t1 Htgt1 Hrun2)
    as (v & h1' & e & Hcopy & -> & Hlookup).
  { unfold hasOwnProperty. rewrite Hsource1, Hp.
    rewrite bool_decide_eq_true_2 by eauto. apply orb_true_r. }
  rewrite (Get_own _ _ _ p) in Hcopy by (by rewrite Hsource1).
  pose proof (mixin_keys_outcome _ _ Hok source after
                (Set_ h1' (target kwArgs) key v)) as Hout3.
  rewrite Hrun3 in Hout3. destruct Hout3 as [Hassigned3 _].
  assert (∃ t2, heap_get (Set_ h1' tgt key v) tgt = Some t2) as [t2 Htgt2].
  { pose proof (copy_keeps _ _ Hok _ _ _ _ _ _ Hcopy Htgt1) as Htgt1'.
    destruct (assigned_to_heap_get _ _ _ _ _ (Set__assigned_to h1' tgt key v) Htgt1')
      as (t2 & ? & _). eauto. }
  pose proof (mixin_keys_other _ _ Hok source key after Hafter _ _ _ Htgt2 Hrun3)
    as Hkept.
  cbn [target kwArgs] in *. rewrite Hlookup in Hkept.
  rewrite (Get_own _ _ _ _ Hkept). cbn [p_value].
  pose proof (copy_value_deep stack kwArgs _ _ _ _ eq_refl Hcopy) as Hdeep.
  rewrite (assigned_to_isObject _ _ _ _ Hassigned1 Hvalue) in Hdeep.
  destruct (isObject h (p_value p)); [|by destruct Hdeep].
  destruct Hdeep as (c & -> & Hc & Hclass & Hproto).
  assert (Set_ h1' tgt key (VObject (Loc (length h1))) !! length h1 = Some c
          ∨ tgt = Loc (length h1)) as [Hc'|Heq].
  { destruct (decide (tgt = Loc (length h1))) as [?|Hfresh]; [by right|]. left.
    destruct (Set__assigned_to h1' tgt key (VObject (Loc (length h1)))) as [_ Hset].
    destruct (Hset _ _ Hc) as (c' & Hc' & _ & _ & Hsame). by rewrite Hc', Hsame. }
  - destruct Hassigned3 as [_ Hkeep3].
    destruct (Hkeep3 _ _ Hc') as (c3 & Hc3 & Hclass3 & Hproto3 & _).
    exists (length h1), c3. split_and!; [done| |done|congruence|congruence].
    by destruct Hassigned1.
  - rewrite Heq in Htgt1. simpl in Htgt1. apply lookup_lt_Some in Htgt1. lia.
Qed.

End TargetFacts.

Section DeepFacts.

Import Lang.

Lemma assigned_to_alloc tgt (h : heap) (o : object) : assigned_to tgt h (h ++ [o]).
Proof.
  split; [rewrite length_app; lia|]. intros n o0 Hn. exists o0.
  split_and!; [by apply lookup_app_l_Some|done..].
Qed.

Lemma heap_get_allocated (h : heap) r o : heap_get h r = Some o → allocated h r.
Proof.
  destruct r as [name|n]; simpl; [done|]. apply lookup_lt_Some.
Qed.

Lemma value_allocated_alloc (h : heap) (o : object) v :
  value_allocated h v → value_allocated (h ++ [o]) v.
Proof.
  destruct v as [| | | | |[name|n]]; simpl; try done.
  rewrite length_app. simpl. lia.
Qed.

(** A deep copy of an object that holds itself: the key that holds it is
    reached with the object as it was, and the copy of its value starts
    the same copy again. *)
Section Cycle.

Variable source : ref.
Variable o : object.
Variable key : string.

Hypothesis plain : o_class o = ClassObject.
Hypothesis holds_itself :
  lookup_property key (o_props o) = Some (Property (VObject source) true).

Lemma mixin_keys_cycle copy kwArgs :
  target kwArgs ≠ source →
  (∀ v h,
     match copy v h with
     | Return (v', h') =>
         (length h ≤ length h' ∧ ∀ n o, h !! n = Some o → h' !! n = Some o)
         ∧ (deep kwArgs = false → length h' = length h)
     | Throw e => deep kwArgs = true ∧ e = stack_overflow
     end) →
  (∀ h, heap_get h source = Some o → copy (VObject source) h = Throw stack_overflow) →
  ∀ keys h,
    key ∈ keys →
    heap_get h source = Some o →
    mixin_keys copy kwArgs source keys h = Throw stack_overflow.
Proof.
  intros Hne Hok Hcopy. induction keys as [|k keys IH]; intros h Hkey Hsource.
  - by apply elem_of_nil in Hkey.
  - cbn [mixin_keys]. destruct (decide (k = key)) as [->|Hk].
    + unfold mixin_key, hasOwnProperty, own_properties. rewrite Hsource, holds_itself.
      rewrite bool_decide_eq_true_2 by eauto. rewrite orb_true_r.
      rewrite (Get_own _ _ _ (Property (VObject source) true))
        by (unfold own_properties; by rewrite Hsource).
      cbn [p_value]. by rewrite Hcopy.
    + pose proof (mixin_key_outcome copy kwArgs Hok source k h) as Hout.
      destruct (mixin_key copy kwArgs source k h) as [h1|e]; simpl.
      * destruct Hout as [Hassigned _].
        destruct (assigned_to_heap_get _ _ _ _ _ Hassigned Hsource)
          as (o' & Hsource' & _ & _ & Hsame).
        rewrite Hsame in Hsource' by done.
        apply IH; [|done]. apply elem_of_cons in Hkey as [?|?]; [congruence|done].
      * by destruct Hout as [_ ->].
Qed.

Lemma _mixin_cycle stack :
  ∀ inh tgt h,
    tgt ≠ source →
    heap_get h source = Some o →
    _mixin stack {| deep := true; inherited := inh; sources := [source]; target := tgt |} h
      = Throw stack_overflow.
Proof.
  induction stack as [|stack IH]; intros inh tgt h Hne Hsource;
    rewrite _mixin_unfold; cbn [sources mixin_sources].
  - set (kwArgs := {| deep := true; inherited := inh; sources := [source];
                      target := tgt |}).
    rewrite (mixin_keys_cycle (copy_value 0 kwArgs) kwArgs Hne (copy_value_ok 0 kwArgs));
      [done| | |done].
    + intros h1 Hsource1. unfold copy_value. cbn [deep isObject kwArgs].
      by rewrite Hsource1, plain.
    + apply (for_in_own h source key (Property (VObject source) true)); [|done].
      unfold own_properties. by rewrite Hsource.
  - set (kwArgs := {| deep := true; inherited := inh; sources := [source];
                      target := tgt |}).
    rewrite (mixin_keys_cycle (copy_value (S stack) kwArgs) kwArgs Hne
               (copy_value_ok (S stack) kwArgs)); [done| | |done].
    + intros h1 Hsource1. unfold copy_value. cbn [deep isObject kwArgs].
      rewrite Hsource1, plain. cbn [Object_literal alloc inherited].
      rewrite IH; [done| |].
      * apply not_eq_sym, allocated_not_new. by eapply heap_get_allocated.
      * rewrite heap_get_old; [done|]. by eapply heap_get_allocated.
    + apply (for_in_own h source key (Property (VObject source) true)); [|done].
      unfold own_properties. by rewrite Hsource.
Qed.

End Cycle.

(** ** [mixin]: the inherited properties *)

Lemma Get_chain_same (h h1 : heap) key :
  ∀ fuel o,
    (∀ r, r ∈ proto_chain_from fuel h o → heap_get h1 r = heap_get h r) →
    Get_chain fuel h1 o key = Get_chain fuel h o key.
Proof.
  induction fuel as [|fuel IH]; intros o Hsame; [done|].
  destruct o as [r|]; [|done]. cbn [Get_chain proto_chain_from] in *.
  unfold own_properties. rewrite (Hsame r) by apply list_elem_of_here.
  destruct (lookup_property key _); [done|].
  apply IH. intros r' Hr'. apply Hsame. by right.
Qed.

Section Inherited.

Variable copy : value → heap → completion error (value * heap).
Variable kwArgs : MixinArgs.
Variable h : heap.
Variable source : ref.

Hypothesis copy_shallow : ∀ v h, copy v h = Return (v, h).
Hypothesis is_inherited : inherited kwArgs = true.
Hypothesis off_chain : target kwArgs ∉ proto_chain h source.

Local Abbreviation tgt := (target kwArgs).

(** The heap in the course of the loop. *)
Local Abbreviation during h1 :=
  (length h1 = length h
   ∧ (∀ r, r ≠ tgt → heap_get h1 r = heap_get h r)
   ∧ is_Some (heap_get h1 tgt)).

Lemma mixin_keys_inherited keys :
  NoDup keys →
  ∀ h1,
    during h1 →
    ∃ h',
      mixin_keys copy kwArgs source keys h1 = Return h'
      ∧ during h'
      ∧ (∀ key, key ∈ keys →
                ∃ e, lookup_property key (own_properties h' tgt) =
                     Some (Property (Get h source key) e))
      ∧ (∀ key, key ∉ keys →
                lookup_property key (own_properties h' tgt) =
                lookup_property key (own_properties h1 tgt)).
Proof.
  induction 1 as [|k keys Hk Hnodup IH]; intros h1 (Hlen & Hsame & [t1 Htgt1]).
  - exists h1. split_and!; [done|done|done|eauto| |done].
    intros key Hkey. by apply elem_of_nil in Hkey.
  - cbn [mixin_keys]. unfold mixin_key. rewrite is_inherited. cbn [orb].
    rewrite copy_shallow. cbn [bind].
    assert (Get h1 source k = Get h source k) as ->.
    { unfold Get. rewrite Hlen. apply Get_chain_same. intros r Hr.
      apply Hsame. intros ->. by apply off_chain. }
    set (h2 := Set_ h1 tgt k (Get h source k)).
    assert (own_properties h2 tgt = assign_property k (Get h source k) (o_props t1))
      as Hown2.
    { unfold own_properties, h2, Set_. rewrite Htgt1.
      by rewrite (heap_get_set _ _ _ _ Htgt1). }
    destruct (IH h2) as (h' & Hrun & Hduring & Hin & Hout).
    { split_and!.
      - unfold h2. by rewrite Set__length.
      - intros r Hr. unfold h2, Set_. rewrite Htgt1.
        rewrite heap_get_set_ne by done. by apply Hsame.
      - unfold h2, Set_. rewrite Htgt1. rewrite (heap_get_set _ _ _ _ Htgt1). eauto. }
    exists h'. split_and!; [done|apply Hduring..| |].
    + intros key Hkey. apply elem_of_cons in Hkey as [->|Hkey]; [|by apply Hin].
      rewrite (Hout k Hk), Hown2, lookup_assign_property, decide_True by done. eauto.
    + intros key Hkey. apply not_elem_of_cons in Hkey as [Hne Hkey].
      rewrite (Hout key Hkey), Hown2, lookup_assign_property, decide_False by done.
      unfold own_properties. by rewrite Htgt1.
Qed.

End Inherited.

End DeepFacts.





(** X13.  A deep copy of an object that holds itself under an enumerable
    key never returns: whatever the depth of the call stack, [deepAssign]
    and [deepMixin] into another object, and [duplicate], end with the
    RangeError of the exhausted stack. *)
Theorem deep_copy_of_cycle_overflows
  (stack_limit : nat) (inh : bool) (tgt source : ref) (h : heap)
  (o : object) (key : string) :
  heap_get h source = Some o →
  o_class o = ClassObject →
  lookup_property key (o_props o) = Some (Property (VObject source) true) →
  tgt ≠ source →
  (if inh then Lang.deepMixin else Lang.deepAssign) stack_limit tgt [source] h
    = Throw Lang.stack_overflow
  ∧ Lang.duplicate stack_limit source h = Throw Lang.stack_overflow.
Proof.
  intros Hsource Hplain Hself Hne. split.
  - destruct inh; by apply (_mixin_cycle source o key Hplain Hself).
  - unfold Lang.duplicate, Lang.Object_getPrototypeOf.
    rewrite Hsource. cbn [mbind option_bind].
    pose proof (heap_get_allocated _ _ _ Hsource) as Hallocated.
    destruct (o_proto o); cbn [Object_create alloc Lang.bind]; unfold Lang.deepMixin;
      (apply (_mixin_cycle source o key Hplain Hself);
       [apply not_eq_sym, allocated_not_new; done|by rewrite heap_get_old]).
Qed.

Lemma deep_copy_of_cycle_overflows_witness :
  Lang.deepAssign 1000 (Loc 1) [Loc 0] Sample.cyclic = Throw Lang.stack_overflow
  ∧ Lang.duplicate 1000 (Loc 0) Sample.cyclic = Throw Lang.stack_overflow.
Proof.
  eapply (deep_copy_of_cycle_overflows 1000 false (Loc 1) (Loc 0) Sample.cyclic
            _ "self"); [reflexivity|reflexivity|reflexivity|done].
Defined.



(** ** Bound functions *)

Lemma Get_Set_ (h : heap) (r : ref) (key : string) (v : value) (o : object) :
  heap_get h r = Some o → Get (Set_ h r key v) r key = v.
Proof.
  intros Hr.
  apply (Get_own _ _ _ (Property v (match lookup_property key (o_props o) with
                                    | Some p => p_enumerable p
                                    | None => true
                                    end))).
  unfold own_properties, Set_. rewrite Hr, (heap_get_set _ _ _ _ Hr). cbn [o_props].
  by rewrite lookup_assign_property, decide_True.
Qed.

(** X15.  The function [partial] returns calls the target with the [this]
    of the call and with the supplied arguments before those of the call,
    whether the call has arguments or not; so binding arguments in two
    steps is binding them all at once. *)
Theorem partial_prepends_arguments
  {Result : Type} (targetFunction : Lang.function Result)
  (supplied1 supplied2 : list value) (this : value) (arguments : list value) :
  Lang.partial targetFunction supplied1 this arguments =
    targetFunction this (supplied1 ++ arguments)
  ∧ Lang.partial (Lang.partial targetFunction supplied1) supplied2 this arguments =
    Lang.partial targetFunction (supplied1 ++ supplied2) this arguments.
Proof.
  assert (∀ (f : Lang.function Result) supplied args,
            Lang.partial f supplied this args = f this (supplied ++ args)) as Hpartial.
  { intros f supplied [|a args]; unfold Lang.partial; [|done]. by rewrite app_nil_r. }
  split; [apply Hpartial|]. by rewrite !Hpartial, app_assoc.
Qed.

(** X16.  The function [lateBind] returns looks the method up when it is
    called: it applies what the instance has under the name then, own or
    inherited, to the instance and to the supplied arguments followed by
    those of the call; after an assignment to that property of the
    instance it applies the value assigned. *)
Theorem lateBind_calls_current_method
  {Result : Type} (apply : value → value → list value → heap → Result)
  (instance : ref) (method : string) (suppliedArgs arguments : list value)
  (h : heap) (o : object) (f : value) :
  heap_get h instance = Some o →
  Lang.lateBind apply instance method suppliedArgs arguments h =
    apply (Get h instance method) (VObject instance) (suppliedArgs ++ arguments) h
  ∧ Lang.lateBind apply instance method suppliedArgs arguments
      (Set_ h instance method f) =
    apply f (VObject instance) (suppliedArgs ++ arguments) (Set_ h instance method f).
Proof.
  intros Hinstance.
  assert (∀ h0, Lang.lateBind apply instance method suppliedArgs arguments h0 =
                apply (Get h0 instance method) (VObject instance)
                  (suppliedArgs ++ arguments) h0) as Hbound.
  { intros h0. unfold Lang.lateBind. destruct suppliedArgs as [|a supplied]; [done|].
    destruct arguments; [|done]. by rewrite app_nil_r. }
  split; [apply Hbound|]. by rewrite Hbound, (Get_Set_ _ _ _ _ _ Hinstance).
Qed.

Lemma lateBind_calls_current_method_witness :
  Lang.lateBind (λ f this args _, (f, this, args)) (Loc 2) "x" [VNull] [VString "1"]
    Sample.objects =
    (VBoolean true, VObject (Loc 2), [VNull; VString "1"])
  ∧ Lang.lateBind (λ f this args _, (f, this, args)) (Loc 2) "x" [VNull] [VString "1"]
      (Set_ Sample.objects (Loc 2) "x" (VString "later")) =
    (VString "later", VObject (Loc 2), [VNull; VString "1"]).
Proof.
  eapply (lateBind_calls_current_method (λ f this args _, (f, this, args))
            (Loc 2) "x" [VNull] [VString "1"] Sample.objects).
  reflexivity.
Defined.


